(** * A filterable table: filter tree, sort, column resize, CSV export

    A shallow embedding of the data pipeline of the [filterable-table]
    component (AdvancedFilter.tsx, FilterableTable.tsx, DataTable.tsx and
    types.ts), with the properties its specification states about it.

    JavaScript strings are modelled as [string] (byte sequences, UTF-8),
    numbers by the integers ([Z]; fractions, NaN and the infinities are left
    out), objects used as records by [gmap string _], the module-level [Map]
    by a [gmap] threaded through the functions that touch it, and the host
    built-ins ([RegExp], [toLowerCase], [localeCompare], the string form of a
    number, [Array.prototype.sort]) by interfaces the development is
    parametric in. *)

From stdpp Require Import base option list gmap strings pretty sorting.
From Stdlib Require Import ZArith Lia Ascii.

Local Open Scope string_scope.
Local Open Scope Z_scope.
Local Open Scope list_scope.

(** ** The string form of a number *)

(** [String(n)] for a number [n], ECMAScript's Number::toString. It is the
    decimal numeral on the safe integers, those of magnitude below 2^53;
    beyond them it is the shortest numeral that reads back as the same
    double, in exponent notation from 10^21 on ([String(1e21)] is [1e+21]),
    which is left to the host. *)
Class NumberFormat : Type := {
  Number_toString : Z → string;
  Number_toString_safe :
    ∀ n, - 9007199254740992 < n < 9007199254740992 → Number_toString n = pretty n;
}.

(** ** JavaScript values held by a row *)

Module JS.

(** The cell values the table is documented for; the numbers are the
    integer-valued ones. A key that is absent from a row reads as
    [undefined]. *)
Inductive Value : Type :=
  | VNull
  | VUndefined
  | VBool (b : bool)
  | VNum (n : Z)
  | VStr (s : string).

#[global] Instance Value_eq_dec : EqDecision Value.
Proof. solve_decision. Defined.

(** [Record<string, unknown>] *)
Abbreviation Row := (gmap string Value).

(** [row[key]] *)
Definition get (row : Row) (key : string) : Value :=
  default VUndefined (row !! key).

(** [String(value)] *)
Definition String_ `{NumberFormat} (v : Value) : string :=
  match v with
  | VNull => "null"
  | VUndefined => "undefined"
  | VBool true => "true"
  | VBool false => "false"
  | VNum n => Number_toString n
  | VStr s => s
  end.

(** [value === null || value === undefined] *)
Definition nullish (v : Value) : bool :=
  match v with
  | VNull | VUndefined => true
  | _ => false
  end.

(** The double quote, code point 34, and the line feed, code point 10. *)
Definition dquote : ascii := Ascii.ascii_of_nat 34.
Definition LF : ascii := Ascii.ascii_of_nat 10.

(** [str.includes(c)] for a one-character needle. *)
Fixpoint includes (c : ascii) (s : string) : bool :=
  match s with
  | EmptyString => false
  | String a s' => if decide (a = c) then true else includes c s'
  end.

(** [arr.join(sep)] on an array of strings. *)
Fixpoint join (sep : string) (l : list string) : string :=
  match l with
  | [] => EmptyString
  | [s] => s
  | s :: l' => s +:+ sep +:+ join sep l'
  end.

(** A completion: a normal value or a thrown exception (named by its
    constructor, as in [SyntaxError]). *)
Inductive completion (A : Type) : Type :=
  | Normal (a : A)
  | Throw (error : string).
Arguments Normal {A} a.
Arguments Throw {A} error.

#[global] Instance completion_eq_dec `{EqDecision A} : EqDecision (completion A).
Proof. solve_decision. Defined.

End JS.
Export JS.

(** ** Host built-ins *)

(** [new RegExp(pattern, flags)] either yields a compiled expression or throws
    a [SyntaxError]; [regex.test(str)] searches [str]. Only the flags [""] and
    ["i"] are used here, under which [test] keeps no state between calls. The
    empty pattern always compiles. *)
Class RegExpEngine : Type := {
  RegExp : Type;
  RegExp_new : string → string → option RegExp;
  RegExp_test : RegExp → string → bool;
  RegExp_new_empty : ∀ flags, is_Some (RegExp_new EmptyString flags);
}.

(** [str.toLowerCase()] and [a.localeCompare(b)]; the latter returns a
    negative number, zero or a positive number, and swapping its arguments
    swaps the sign. *)
Class Collation : Type := {
  toLowerCase : string → string;
  localeCompare : string → string → Z;
  localeCompare_swap : ∀ a b, Z.sgn (localeCompare b a) = - Z.sgn (localeCompare a b);
}.

(** ** The filter expression tree (types.ts) *)

Inductive FilterOperator : Type := AND | OR.

#[global] Instance FilterOperator_eq_dec : EqDecision FilterOperator.
Proof. solve_decision. Defined.

(** [caseSensitive?: boolean] is optional. *)
Record FilterCondition : Type := {
  cond_id : string;
  column : string;
  regex : string;
  caseSensitive : option bool;
}.

#[warnings="-register-all"]
Inductive FilterNode : Type :=
  | Condition (c : FilterCondition)
  | Group (id : string) (operator : FilterOperator) (children : list FilterNode).

Record FilterGroup : Type := {
  group_id : string;
  operator : FilterOperator;
  children : list FilterNode;
}.

Definition group_node (g : FilterGroup) : FilterNode :=
  Group (group_id g) (operator g) (children g).

(** ** Evaluation effects *)

(** What evaluating a predicate does besides returning: each construction of
    a regular expression is recorded. *)
Inductive Event : Type :=
  | NewRegExp (pattern flags : string).

Module Effect.

Definition M (A : Type) : Type := list Event * completion A.

Definition ret {A} (a : A) : M A := ([], Normal a).

Definition bind {A B} (m : M A) (f : A → M B) : M B :=
  match m with
  | (t, Normal a) => let '(t', r) := f a in (t ++ t', r)
  | (t, Throw e) => (t, Throw e)
  end.

(** [try { m } catch { handler }] *)
Definition try_catch {A} (m : M A) (handler : M A) : M A :=
  match m with
  | (t, Normal a) => (t, Normal a)
  | (t, Throw _) => let '(t', r) := handler in (t ++ t', r)
  end.

Definition emit (e : Event) : M unit := ([e], Normal tt).

Definition throw {A} (error : string) : M A := ([], Throw error).

Definition trace {A} (m : M A) : list Event := m.1.
Definition outcome {A} (m : M A) : completion A := m.2.

(** [arr.every(f)]: stops at the first falsy result. *)
Definition every {A} (f : A → M bool) : list A → M bool :=
  fix go (l : list A) : M bool :=
    match l with
    | [] => ret true
    | x :: l' => bind (f x) (λ b, if b then go l' else ret false)
    end.

(** [arr.some(f)]: stops at the first truthy result. *)
Definition some {A} (f : A → M bool) : list A → M bool :=
  fix go (l : list A) : M bool :=
    match l with
    | [] => ret false
    | x :: l' => bind (f x) (λ b, if b then ret true else go l')
    end.

(** [arr.filter(f)] *)
Definition filter {A} (f : A → M bool) : list A → M (list A) :=
  fix go (l : list A) : M (list A) :=
    match l with
    | [] => ret []
    | x :: l' =>
        bind (f x) (λ b, bind (go l') (λ kept, ret (if b then x :: kept else kept)))
    end.

End Effect.

#[global] Instance Effect_ret : MRet Effect.M := @Effect.ret.
#[global] Instance Effect_bind : MBind Effect.M := λ A B f m, Effect.bind m f.

(** ** The evaluator (AdvancedFilter.tsx, createEvaluator) *)

Section Evaluator.
Context `{RegExpEngine} `{NumberFormat}.

(** The constructor call, with its trace entry. *)
Definition new_RegExp (pattern flags : string) : Effect.M RegExp :=
  _ ← Effect.emit (NewRegExp pattern flags);
  match RegExp_new pattern flags with
  | Some re => Effect.ret re
  | None => Effect.throw "SyntaxError"
  end.

(** [node.caseSensitive ? "" : "i"] *)
Definition flags_of (c : FilterCondition) : string :=
  if default false (caseSensitive c) then EmptyString else "i".

(** The branch of [evaluateNode] for [node.type === "condition"]: an empty
    pattern is true without constructing anything; otherwise everything from
    the constructor call to the test runs inside the [try], and the [catch]
    returns false. *)
Definition evaluateCondition (c : FilterCondition) (row : Row) : Effect.M bool :=
  if decide (regex c = EmptyString) then Effect.ret true
  else
    Effect.try_catch
      (let flags := flags_of c in
       re ← new_RegExp (regex c) flags;
       let value := get row (column c) in
       let strValue := if nullish value then EmptyString else String_ value in
       Effect.ret (RegExp_test re strValue))
      (Effect.ret false).

Fixpoint evaluateNode (node : FilterNode) (row : Row) : Effect.M bool :=
  match node with
  | Condition c => evaluateCondition c row
  | Group _ operator children =>
      match children with
      | [] => Effect.ret true
      | _ =>
          match operator with
          | AND => Effect.every (λ child, evaluateNode child row) children
          | OR => Effect.some (λ child, evaluateNode child row) children
          end
      end
  end.

(** The annotation [root: FilterGroup] is erased at run time: the evaluator
    closes over whatever node it is given. *)
Definition createEvaluator (root : FilterNode) : Row → Effect.M bool :=
  λ row, evaluateNode root row.

End Evaluator.

(** Applying the published predicate to every row: [props.data.filter(evaluator)]
    (FilterableTable.tsx, processedData). *)
Definition filterData `{RegExpEngine} `{NumberFormat} (root : FilterNode) (data : list Row) :
    Effect.M (list Row) :=
  Effect.filter (createEvaluator root) data.

(** The number of condition leaves of a tree. *)
Fixpoint conditions (node : FilterNode) : nat :=
  match node with
  | Condition _ => 1%nat
  | Group _ _ children => sum_list (map conditions children)
  end.

(** The number of regular expressions a computation constructs. *)
Definition regexParses {A} (m : Effect.M A) : nat := length (Effect.trace m).

(** ** The side table of live input values (AdvancedFilter.tsx) *)

Record FilterValue : Type := {
  value_column : string;
  value_regex : string;
  value_caseSensitive : bool;
}.

(** The module-level [filterValuesStore: Map<string, ...>]. *)
Abbreviation Store := (gmap string FilterValue).

Definition getFilterValue (id defaultColumn defaultRegex : string)
    (defaultCaseSensitive : bool) (store : Store) : FilterValue * Store :=
  match store !! id with
  | Some values => (values, store)
  | None =>
      let values := {| value_column := defaultColumn;
                       value_regex := defaultRegex;
                       value_caseSensitive := defaultCaseSensitive |} in
      (values, <[id := values]> store)
  end.

Definition setFilterValue (id column regex : string) (caseSensitive : bool)
    (store : Store) : Store :=
  <[id := {| value_column := column; value_regex := regex;
             value_caseSensitive := caseSensitive |}]> store.

(** [arr.map(f)] for an [f] that reads and writes the store. *)
Definition map_store {A B} (f : A → Store → B * Store) : list A → Store → list B * Store :=
  fix go (l : list A) (store : Store) : list B * Store :=
    match l with
    | [] => ([], store)
    | x :: l' =>
        let '(y, store1) := f x store in
        let '(ys, store2) := go l' store1 in
        (y :: ys, store2)
    end.

Fixpoint buildFilterWithValues (node : FilterNode) (store : Store) : FilterNode * Store :=
  match node with
  | Condition c =>
      let '(values, store') :=
        getFilterValue (cond_id c) (column c) (regex c)
          (default false (caseSensitive c)) store in
      (Condition {| cond_id := cond_id c;
                    column := value_column values;
                    regex := value_regex values;
                    caseSensitive := Some (value_caseSensitive values) |},
       store')
  | Group id operator children =>
      let '(children', store') := map_store buildFilterWithValues children store in
      (Group id operator children', store')
  end.

(** ** Editing the tree: removing a child (FilterGroupBuilder) *)

(** [JSON.parse(JSON.stringify(obj))]: a structurally equal copy. *)
Definition deepClone {A} (obj : A) : A := obj.

Fixpoint removeFromStore (node : FilterNode) (store : Store) : Store :=
  match node with
  | Condition c => delete (cond_id c) store
  | Group _ _ children =>
      foldl (λ store' child, removeFromStore child store') store children
  end.

(** Returns the group handed to [props.onStructureChange] and the store
    afterwards; [None] stands for the [TypeError] raised when
    [props.group.children[index]] is [undefined]. *)
Definition handleRemoveChild (group : FilterGroup) (index : nat) (store : Store) :
    option (FilterGroup * Store) :=
  match children group !! index with
  | None => None
  | Some child =>
      let store' := removeFromStore child store in
      let updated := deepClone group in
      Some ({| group_id := group_id updated;
               operator := operator updated;
               children := delete index (children updated) |},
            store')
  end.

(** The ids of the condition leaves, and of all nodes, of a subtree. *)
Fixpoint conditionIds (node : FilterNode) : list string :=
  match node with
  | Condition c => [cond_id c]
  | Group _ _ children => concat (map conditionIds children)
  end.

Fixpoint nodeIds (node : FilterNode) : list string :=
  match node with
  | Condition c => [cond_id c]
  | Group id _ children => id :: concat (map nodeIds children)
  end.

Fixpoint groupIds (node : FilterNode) : list string :=
  match node with
  | Condition c => []
  | Group id _ children => id :: concat (map groupIds children)
  end.

(** ** The apply and debounce protocol (AdvancedFilter) *)

(** What [props.onFilterChange] receives: the evaluator of a snapshot of the
    tree, or the constant [() => true]. *)
Inductive Predicate : Type :=
  | Evaluator (root : FilterNode)
  | MatchAll.

Definition runPredicate `{RegExpEngine} `{NumberFormat} (p : Predicate) (row : Row) : Effect.M bool :=
  match p with
  | Evaluator root => createEvaluator root row
  | MatchAll => Effect.ret true
  end.

(** The component's own state ([filterRoot], [isAutoApply],
    [debouncedTimerRef]) and the part of the world its handlers act on: the
    host's timers that are armed and have neither fired nor been cleared, the
    next timer handle the host will hand out, the store, and the calls the
    consumer has received (oldest first). Timer handles are positive
    integers. *)
Record AdvancedFilter : Type := {
  filterRoot : FilterGroup;
  isAutoApply : bool;
  debouncedTimerRef : option positive;
  armedTimers : gset positive;
  nextTimer : positive;
  filterValuesStore : Store;
  onFilterChange : list Predicate;
  onReset : nat;
}.

Definition clearTimeout (timer : positive) (s : AdvancedFilter) : AdvancedFilter :=
  {| filterRoot := filterRoot s; isAutoApply := isAutoApply s;
     debouncedTimerRef := debouncedTimerRef s;
     armedTimers := armedTimers s ∖ {[timer]};
     nextTimer := nextTimer s;
     filterValuesStore := filterValuesStore s;
     onFilterChange := onFilterChange s; onReset := onReset s |}.

Definition set_debouncedTimerRef (ref : option positive) (s : AdvancedFilter) : AdvancedFilter :=
  {| filterRoot := filterRoot s; isAutoApply := isAutoApply s;
     debouncedTimerRef := ref;
     armedTimers := armedTimers s;
     nextTimer := nextTimer s;
     filterValuesStore := filterValuesStore s;
     onFilterChange := onFilterChange s; onReset := onReset s |}.

(** [debouncedTimerRef = setTimeout(..., 500)] *)
Definition setTimeout_ref (s : AdvancedFilter) : AdvancedFilter :=
  {| filterRoot := filterRoot s; isAutoApply := isAutoApply s;
     debouncedTimerRef := Some (nextTimer s);
     armedTimers := armedTimers s ∪ {[nextTimer s]};
     nextTimer := Pos.succ (nextTimer s);
     filterValuesStore := filterValuesStore s;
     onFilterChange := onFilterChange s; onReset := onReset s |}.

Definition applyFilter (s : AdvancedFilter) : AdvancedFilter :=
  let '(completeFilter, store') :=
    buildFilterWithValues (group_node (filterRoot s)) (filterValuesStore s) in
  {| filterRoot := filterRoot s; isAutoApply := isAutoApply s;
     debouncedTimerRef := debouncedTimerRef s;
     armedTimers := armedTimers s;
     nextTimer := nextTimer s;
     filterValuesStore := store';
     onFilterChange := onFilterChange s ++ [Evaluator completeFilter];
     onReset := onReset s |}.

(** [if (debouncedTimerRef) { clearTimeout(debouncedTimerRef); debouncedTimerRef = null; }] *)
Definition cancelDebounce (s : AdvancedFilter) : AdvancedFilter :=
  match debouncedTimerRef s with
  | Some timer => set_debouncedTimerRef None (clearTimeout timer s)
  | None => s
  end.

Definition triggerDebouncedApply (s : AdvancedFilter) : AdvancedFilter :=
  let s := cancelDebounce s in
  if isAutoApply s then setTimeout_ref s else s.

Definition handleStructureChange (updated : FilterGroup) (s : AdvancedFilter) : AdvancedFilter :=
  triggerDebouncedApply
    {| filterRoot := updated; isAutoApply := isAutoApply s;
       debouncedTimerRef := debouncedTimerRef s;
       armedTimers := armedTimers s;
       nextTimer := nextTimer s;
       filterValuesStore := filterValuesStore s;
       onFilterChange := onFilterChange s; onReset := onReset s |}.

Definition handleValueChange (s : AdvancedFilter) : AdvancedFilter :=
  triggerDebouncedApply s.

Definition handleEnterKey (s : AdvancedFilter) : AdvancedFilter :=
  if negb (isAutoApply s) then applyFilter (cancelDebounce s) else s.

Definition handleReset (s : AdvancedFilter) : AdvancedFilter :=
  {| filterRoot := filterRoot s; isAutoApply := isAutoApply s;
     debouncedTimerRef := debouncedTimerRef s;
     armedTimers := armedTimers s;
     nextTimer := nextTimer s;
     filterValuesStore := filterValuesStore s;
     onFilterChange := onFilterChange s ++ [MatchAll];
     onReset := S (onReset s) |}.

(** [onCleanup]: the timer is cleared, the variable is left as it is. *)
Definition onCleanup (s : AdvancedFilter) : AdvancedFilter :=
  match debouncedTimerRef s with
  | Some timer => clearTimeout timer s
  | None => s
  end.

(** The checkbox: [setIsAutoApply(e.currentTarget.checked)]. *)
Definition setIsAutoApply (checked : bool) (s : AdvancedFilter) : AdvancedFilter :=
  {| filterRoot := filterRoot s; isAutoApply := checked;
     debouncedTimerRef := debouncedTimerRef s;
     armedTimers := armedTimers s;
     nextTimer := nextTimer s;
     filterValuesStore := filterValuesStore s;
     onFilterChange := onFilterChange s; onReset := onReset s |}.

(** The host runs the callback of an armed timer: [() => { applyFilter(); }].
    A timer that fires is armed no longer (the variable keeps its handle); a
    timer that is not armed never fires. *)
Definition timerFires (timer : positive) (s : AdvancedFilter) : AdvancedFilter :=
  if decide (timer ∈ armedTimers s) then applyFilter (clearTimeout timer s) else s.

(** An input edit in a condition row: the row's handler writes the store
    ([setFilterValue]) and then calls [props.onValueChange]. *)
Definition inputEdit (id column regex : string) (caseSensitive : bool)
    (s : AdvancedFilter) : AdvancedFilter :=
  handleValueChange
    {| filterRoot := filterRoot s; isAutoApply := isAutoApply s;
       debouncedTimerRef := debouncedTimerRef s;
       armedTimers := armedTimers s;
       nextTimer := nextTimer s;
       filterValuesStore := setFilterValue id column regex caseSensitive (filterValuesStore s);
       onFilterChange := onFilterChange s; onReset := onReset s |}.

(** The side table is a module-level map, written also outside the handlers
    above: a condition row reads its entry as it mounts, which creates the
    entry if there was none ([getFilterValue]); a group builder writes the
    entry of the condition it adds, alone or in a new group
    ([setFilterValue] in [handleAddCondition] and [handleAddGroup]), and
    deletes the entries of the child it removes ([removeFromStore] in
    [handleRemoveChild]), each before it hands on the updated group. *)
Inductive StoreWrite : Type :=
  | ValueRead (id defaultColumn defaultRegex : string) (defaultCaseSensitive : bool)
  | ValueSet (id column regex : string) (caseSensitive : bool)
  | SubtreeRemoved (child : FilterNode).

Definition writeStore (write : StoreWrite) (store : Store) : Store :=
  match write with
  | ValueRead id defaultColumn defaultRegex defaultCaseSensitive =>
      (getFilterValue id defaultColumn defaultRegex defaultCaseSensitive store).2
  | ValueSet id column regex caseSensitive =>
      setFilterValue id column regex caseSensitive store
  | SubtreeRemoved child => removeFromStore child store
  end.

Definition set_filterValuesStore (store : Store) (s : AdvancedFilter) : AdvancedFilter :=
  {| filterRoot := filterRoot s; isAutoApply := isAutoApply s;
     debouncedTimerRef := debouncedTimerRef s;
     armedTimers := armedTimers s;
     nextTimer := nextTimer s;
     filterValuesStore := store;
     onFilterChange := onFilterChange s; onReset := onReset s |}.

(** The signals the component receives, and the writes to the side table
    that happen around it. *)
Inductive Signal : Type :=
  | StructureChange (updated : FilterGroup)
  | InputEdit (id column regex : string) (caseSensitive : bool)
  | EnterKey
  | Reset
  | SetAutoApply (checked : bool)
  | TimerFires (timer : positive)
  | Cleanup
  | StoreWritten (write : StoreWrite).

Definition react (s : AdvancedFilter) (signal : Signal) : AdvancedFilter :=
  match signal with
  | StructureChange updated => handleStructureChange updated s
  | InputEdit id column regex caseSensitive => inputEdit id column regex caseSensitive s
  | EnterKey => handleEnterKey s
  | Reset => handleReset s
  | SetAutoApply checked => setIsAutoApply checked s
  | TimerFires timer => timerFires timer s
  | Cleanup => onCleanup s
  | StoreWritten write =>
      set_filterValuesStore (writeStore write (filterValuesStore s)) s
  end.

(** The component as mounted: [createDefaultFilter()] is the root (its ids
    come from [generateId] and are given here), no timer, nothing received. *)
Definition mount (rootId conditionId : string) (defaultAutoApply : option bool)
    (store : Store) : AdvancedFilter :=
  {| filterRoot :=
       {| group_id := rootId; operator := AND;
          children := [Condition {| cond_id := conditionId; column := EmptyString;
                                    regex := EmptyString;
                                    caseSensitive := Some false |}] |};
     isAutoApply := default true defaultAutoApply;
     debouncedTimerRef := None;
     armedTimers := ∅;
     nextTimer := 1%positive;
     filterValuesStore := store;
     onFilterChange := [];
     onReset := 0%nat |}.

(** The states the component can be in: from a mount over any contents of
    the side table, by any signals and writes to the side table. *)
Inductive reachable : AdvancedFilter → Prop :=
  | reachable_mount rootId conditionId defaultAutoApply store :
      reachable (mount rootId conditionId defaultAutoApply store)
  | reachable_react s signal :
      reachable s → reachable (react s signal).

(** ** Sorting (FilterableTable.tsx) *)

Inductive SortDirection : Type := asc | desc.

(** [{column: string | null, direction: "asc" | "desc" | null}] *)
Record SortState : Type := {
  sort_column : option string;
  direction : option SortDirection;
}.

Definition getRawValue `{NumberFormat} (row : Row) (column : string) : Value :=
  let value := get row column in
  if nullish value then VStr EmptyString
  else match value with
       | VNum _ | VBool _ => value
       | _ => VStr (String_ value)
       end.

(** The comparator handed to [sort]. *)
Definition compareRows `{Collation} `{NumberFormat} (column : string) (direction : SortDirection)
    (a b : Row) : Z :=
  let aVal := getRawValue a column in
  let bVal := getRawValue b column in
  let comparison :=
    match aVal, bVal with
    | VNum x, VNum y => x - y
    | VBool x, VBool y => if decide (x = y) then 0 else if x then 1 else -1
    | _, _ =>
        let aStr := toLowerCase (String_ aVal) in
        let bStr := toLowerCase (String_ bVal) in
        localeCompare aStr bStr
    end in
  match direction with
  | asc => comparison
  | desc => - comparison
  end.

(** ECMAScript's consistent comparator for a set of values: a value ties
    with itself, ties are symmetric and transitive, and so are the two strict
    outcomes. *)
Definition consistent {A} (compare : A → A → Z) (l : list A) : Prop :=
  ∀ a b c, a ∈ l → b ∈ l → c ∈ l →
    compare a a = 0
    ∧ (compare a b = 0 → compare b a = 0)
    ∧ (compare a b = 0 → compare b c = 0 → compare a c = 0)
    ∧ (compare a b < 0 → compare b c < 0 → compare a c < 0)
    ∧ (0 < compare a b → 0 < compare b c → 0 < compare a c).

(** [a] may stand before [b] under the comparator. *)
Definition in_order {A} (compare : A → A → Z) (a b : A) : Prop := compare a b ≤ 0.

(** [arr.sort(compare)], by what ECMAScript requires of it. The result holds
    the elements of the array, each as often as the array did. If the
    comparator is consistent for them, the result is ordered by it and, from
    ECMAScript 2019 on, stable: the elements that tie with a given one stand
    in the order the array had them. For a comparator that is not
    consistent the order is implementation-defined, and nothing more is
    required. *)
Class SortEngine : Type := {
  Array_sort : ∀ A : Type, (A → A → Z) → list A → list A;
  Array_sort_permutes :
    ∀ A (compare : A → A → Z) (l : list A), Array_sort A compare l ≡ₚ l;
  Array_sort_ordered :
    ∀ A (compare : A → A → Z) (l : list A),
      consistent compare l →
      StronglySorted (in_order compare) (Array_sort A compare l);
  Array_sort_stable :
    ∀ A (compare : A → A → Z) (l : list A) (a : A),
      consistent compare l → a ∈ l →
      filter (λ b, compare a b = 0) (Array_sort A compare l)
      = filter (λ b, compare a b = 0) l;
}.
Arguments Array_sort {_ A} compare l.

(** Arrays are objects: a heap of arrays of rows, by reference. *)
Abbreviation Arrays := (gmap positive (list Row)).

(** [sortData(data)] under the sort state [st]: the reference returned, and
    the heap afterwards. [!column] holds of [null] and of the empty string;
    [[...data]] allocates a copy and [sort] reorders that copy in place. *)
Definition sortData `{Collation} `{NumberFormat} `{SortEngine}
    (st : SortState) (heap : Arrays) (data : positive) : positive * Arrays :=
  match sort_column st, direction st with
  | Some column, Some direction =>
      if decide (column = EmptyString) then (data, heap)
      else
        let copy := fresh (dom heap) in
        let heap1 := <[copy := default [] (heap !! data)]> heap in
        (copy, alter (Array_sort (compareRows column direction)) copy heap1)
  | _, _ => (data, heap)
  end.

(** ** Column resize (DataTable.tsx) *)

Record ResizeData : Type := {
  leftColumn : string;
  rightColumn : string;
  startX : Z;
  leftStartWidth : Z;
  rightStartWidth : Z;
  minWidth : Z;
}.

(** [`${n}px`] *)
Definition px (n : Z) : string := pretty n +:+ "px".

(** The calls [props.onColumnResize] receives on a pointer move at
    [clientX], in order, as (column key, width). *)
Definition handleResizeMove (resizeData : option ResizeData) (clientX : Z) :
    list (string * string) :=
  match resizeData with
  | None => []
  | Some d =>
      let diff := clientX - startX d in
      if decide (diff = 0) then []
      else
        let totalWidth := leftStartWidth d + rightStartWidth d in
        let newLeftWidth := leftStartWidth d + diff in
        let newRightWidth := rightStartWidth d - diff in
        let '(newLeftWidth, newRightWidth) :=
          if decide (newLeftWidth < minWidth d)
          then (minWidth d, totalWidth - minWidth d)
          else (newLeftWidth, newRightWidth) in
        let '(newLeftWidth, newRightWidth) :=
          if decide (newRightWidth < minWidth d)
          then (totalWidth - minWidth d, minWidth d)
          else (newLeftWidth, newRightWidth) in
        [(leftColumn d, px newLeftWidth); (rightColumn d, px newRightWidth)]
  end.

(** ** Columns and their visibility *)

(** Of a column definition, the key and the header label; the other
    fields (width, alignment, flags, renderer) play no part below. *)
Record ColumnDefinition : Type := {
  key : string;
  label : string;
}.

(** DataTable.tsx, the memo [visibleColumns]; [handleExport] computes its
    [columnsToExport] by the same expression. *)
Definition visibleColumns (columns : list ColumnDefinition) (visible : list string) :
    list ColumnDefinition :=
  filter (λ col, key col ∈ visible) columns.

(** FilterableTable.tsx, [toggleColumn]: the new visible-columns sequence. *)
Definition toggleColumn (columnKey : string) (current : list string) : list string :=
  if decide (columnKey ∈ current) then
    if decide (1 < length current)%nat
    then filter (λ k, k ≠ columnKey) current
    else current
  else current ++ [columnKey].

(** ** CSV export (FilterableTable.tsx, handleExport) *)

(** [str.replace] with the global pattern of one double quote and the
    replacement of two: every double quote is doubled. *)
Fixpoint double_quotes (s : string) : string :=
  match s with
  | EmptyString => EmptyString
  | String a s' =>
      if decide (a = dquote) then String dquote (String dquote (double_quotes s'))
      else String a (double_quotes s')
  end.

Definition comma : ascii := Ascii.ascii_of_nat 44.

(** The body of the inner [map]: one cell of one row. *)
Definition exportCell `{NumberFormat} (value : Value) : string :=
  if nullish value then EmptyString
  else match value with
       | VBool b => if b then "Yes" else "No"
       | _ =>
           let str := String_ value in
           if includes comma str || includes dquote str || includes LF str
           then String dquote (double_quotes str +:+ String dquote EmptyString)
           else str
       end.

Definition exportRow `{NumberFormat} (columnsToExport : list ColumnDefinition) (row : Row) : list string :=
  map (λ col, exportCell (get row (key col))) columnsToExport.

Definition csvContent `{NumberFormat} (columnsToExport : list ColumnDefinition) (dataToExport : list Row) :
    string :=
  let headers := map label columnsToExport in
  let rows := map (exportRow columnsToExport) dataToExport in
  join (String LF EmptyString) (join "," headers :: map (join ",") rows).

(** U+FEFF as the blob encodes it: the bytes EF BB BF. *)
Definition BOM : string :=
  String (ascii_of_nat 239) (String (ascii_of_nat 187) (String (ascii_of_nat 191) EmptyString)).

Inductive ExportDataType : Type := visible | all.

(** The text of the blob that is downloaded. *)
Definition handleExport `{NumberFormat} (exportType : ExportDataType) (processedData data : list Row)
    (columns : list ColumnDefinition) (visibleKeys : list string) : string :=
  let dataToExport :=
    match exportType with
    | visible => processedData
    | all => data
    end in
  let columnsToExport := filter (λ col, key col ∈ visibleKeys) columns in
  BOM +:+ csvContent columnsToExport dataToExport.

(** ** A small host *)

(** Enough of a host to run the model on concrete inputs. The engine accepts
    the patterns made of ASCII letters and digits only, which stand for
    themselves, and rejects every other pattern; the collation is ASCII;
    numbers print as decimal numerals; the sort is a stable insertion. *)
Module Literal.

Definition is_upper (a : ascii) : bool :=
  let n := nat_of_ascii a in (65 <=? n)%nat && (n <=? 90)%nat.

Definition is_alnum (a : ascii) : bool :=
  let n := nat_of_ascii a in
  ((48 <=? n)%nat && (n <=? 57)%nat) || is_upper a
  || ((97 <=? n)%nat && (n <=? 122)%nat).

Fixpoint all_alnum (s : string) : bool :=
  match s with
  | EmptyString => true
  | String a s' => is_alnum a && all_alnum s'
  end.

Definition lower_ascii (a : ascii) : ascii :=
  if is_upper a then ascii_of_nat (nat_of_ascii a + 32) else a.

Fixpoint lower (s : string) : string :=
  match s with
  | EmptyString => EmptyString
  | String a s' => String (lower_ascii a) (lower s')
  end.

Fixpoint contains (needle hay : string) : bool :=
  String.prefix needle hay
  || match hay with
     | EmptyString => false
     | String _ hay' => contains needle hay'
     end.

Definition compile (pattern flags : string) : option (string * bool) :=
  if all_alnum pattern then Some (pattern, bool_decide (flags = "i")) else None.

Definition test (re : string * bool) (s : string) : bool :=
  if re.2 then contains (lower re.1) (lower s) else contains re.1 s.

Lemma compile_empty flags : is_Some (compile EmptyString flags).
Proof. unfold compile; simpl; eauto. Qed.

Definition compare (a b : string) : Z :=
  match String.compare a b with
  | Lt => -1
  | Eq => 0
  | Gt => 1
  end.

Lemma compare_swap a b : Z.sgn (compare b a) = - Z.sgn (compare a b).
Proof.
  unfold compare. rewrite (String.compare_antisym a b).
  destruct (String.compare b a); reflexivity.
Qed.

End Literal.

(** Stable insertion: an element goes after the elements it does not
    precede and before the first one it ties with or precedes. *)
Module Insertion.

Section Sort.
Context {A : Type} (compare : A → A → Z).

Fixpoint insert (x : A) (l : list A) : list A :=
  match l with
  | [] => [x]
  | y :: l' =>
      if decide (compare x y ≤ 0) then x :: y :: l'
      else y :: insert x l'
  end.

Definition sort (l : list A) : list A := foldr insert [] l.

Lemma insert_Permutation (x : A) (l : list A) : insert x l ≡ₚ x :: l.
Proof.
  induction l as [| y l IH]; simpl; [reflexivity |].
  destruct (decide (compare x y ≤ 0)); [reflexivity |].
  rewrite IH. apply Permutation_swap.
Qed.

Lemma sort_Permutation (l : list A) : sort l ≡ₚ l.
Proof.
  induction l as [| x l IH]; simpl; [reflexivity |].
  rewrite insert_Permutation, IH. reflexivity.
Qed.

Lemma sort_elem_of (x : A) (l : list A) : x ∈ sort l ↔ x ∈ l.
Proof. rewrite sort_Permutation. reflexivity. Qed.

(** What consistency gives on the elements it speaks of: of two elements one
    may stand before the other, and "may stand before" is transitive. *)
Lemma consistent_total (L : list A) (a b : A) :
  consistent compare L → a ∈ L → b ∈ L → 0 < compare a b → compare b a ≤ 0.
Proof.
  intros Hcons Ha Hb Hab.
  destruct (Hcons a b a Ha Hb Ha) as (Hrefl & _ & _ & _ & Hgt).
  destruct (Z_lt_le_dec 0 (compare b a)) as [Hba | Hba]; [| exact Hba].
  specialize (Hgt Hab Hba). lia.
Qed.

Lemma consistent_before (L : list A) (a b : A) :
  consistent compare L → a ∈ L → b ∈ L → compare a b < 0 → 0 < compare b a.
Proof.
  intros Hcons Ha Hb Hab.
  destruct (Hcons a b a Ha Hb Ha) as (Hrefl & _ & _ & Hlt & _).
  destruct (Hcons b a b Hb Ha Hb) as (_ & Hsym & _ & _ & _).
  destruct (Z.lt_trichotomy (compare b a) 0) as [Hba | [Hba | Hba]].
  - specialize (Hlt Hab Hba). lia.
  - specialize (Hsym Hba). lia.
  - exact Hba.
Qed.

Lemma consistent_trans (L : list A) (a b c : A) :
  consistent compare L → a ∈ L → b ∈ L → c ∈ L →
  compare a b ≤ 0 → compare b c ≤ 0 → compare a c ≤ 0.
Proof.
  intros Hcons Ha Hb Hc Hab Hbc.
  destruct (Hcons a b c Ha Hb Hc) as (_ & _ & Heq & Hlt & _).
  pose proof (consistent_before L a b Hcons Ha Hb) as Hba.
  pose proof (consistent_before L b c Hcons Hb Hc) as Hcb.
  destruct (Hcons b a c Hb Ha Hc) as (_ & _ & _ & _ & Hgt).
  destruct (Hcons a c b Ha Hc Hb) as (_ & _ & _ & _ & Hgt').
  lia.
Qed.

Lemma insert_StronglySorted (L : list A) (x : A) (l : list A) :
  consistent compare L → x ∈ L → (∀ y, y ∈ l → y ∈ L) →
  StronglySorted (in_order compare) l →
  StronglySorted (in_order compare) (insert x l).
Proof.
  intros Hcons Hx Hl Hsorted.
  induction Hsorted as [| y l Hsorted IH Hy]; simpl.
  - repeat constructor.
  - assert (y ∈ L) as HyL by (apply Hl; left).
    assert (∀ z, z ∈ l → z ∈ L) as HlL by (intros z Hz; apply Hl; right; exact Hz).
    destruct (decide (compare x y ≤ 0)) as [Hle | Hgt].
    + constructor; [constructor; assumption |].
      constructor; [exact Hle |].
      rewrite Forall_forall in Hy |- *. intros z Hz.
      apply (consistent_trans L x y z); auto. apply Hy, Hz.
    + constructor; [apply IH, HlL |].
      rewrite insert_Permutation. constructor; [| exact Hy].
      apply (consistent_total L); auto. lia.
Qed.

Lemma sort_StronglySorted (l : list A) :
  consistent compare l → StronglySorted (in_order compare) (sort l).
Proof.
  intros Hcons.
  assert (∀ k, (∀ y, y ∈ k → y ∈ l) → StronglySorted (in_order compare) (sort k))
    as Hgen.
  { induction k as [| x k IH]; intros Hk; simpl; [constructor |].
    apply (insert_StronglySorted l).
    - exact Hcons.
    - apply Hk. left.
    - intros y Hy. apply Hk. right. apply sort_elem_of, Hy.
    - apply IH. intros y Hy. apply Hk. right. exact Hy. }
  apply Hgen. auto.
Qed.

(** Insertion keeps the members of a class in their order when the members
    of the class may stand before one another. *)
Lemma insert_filter (P : A → Prop) `{∀ a, Decision (P a)} (x : A) (l : list A) :
  (∀ y, y ∈ l → P x → P y → compare x y ≤ 0) →
  filter P (insert x l) = filter P (x :: l).
Proof.
  induction l as [| y l IH]; intros Hclass; simpl; [reflexivity |].
  destruct (decide (compare x y ≤ 0)) as [Hle | Hgt]; [reflexivity |].
  rewrite filter_cons, IH by (intros z Hz; apply Hclass; right; exact Hz).
  rewrite !filter_cons.
  destruct (decide (P y)) as [Hy | Hy], (decide (P x)) as [Hx | Hx]; try reflexivity.
  exfalso. apply Hgt, Hclass; [left | exact Hx | exact Hy].
Qed.

Lemma sort_filter (P : A → Prop) `{∀ a, Decision (P a)} (l : list A) :
  (∀ a b, a ∈ l → b ∈ l → P a → P b → compare a b ≤ 0) →
  filter P (sort l) = filter P l.
Proof.
  induction l as [| x l IH]; intros Hclass; simpl; [reflexivity |].
  rewrite insert_filter.
  - rewrite !filter_cons, IH; [reflexivity |].
    intros a b Ha Hb. apply Hclass; right; assumption.
  - intros y Hy. apply Hclass; [left | right; apply sort_elem_of, Hy].
Qed.

Lemma sort_stable (l : list A) (a : A) :
  consistent compare l → a ∈ l →
  filter (λ b, compare a b = 0) (sort l) = filter (λ b, compare a b = 0) l.
Proof.
  intros Hcons Ha. apply sort_filter. intros x y Hx Hy Hax Hay.
  destruct (Hcons a x a Ha Hx Ha) as (_ & Hsym & _).
  destruct (Hcons x a y Hx Ha Hy) as (_ & _ & Heq & _).
  rewrite (Heq (Hsym Hax) Hay). reflexivity.
Qed.

End Sort.

End Insertion.

#[export] Instance decimal_format : NumberFormat := {|
  Number_toString := pretty;
  Number_toString_safe := λ n _, eq_refl;
|}.

#[export] Instance insertion_engine : SortEngine := {|
  Array_sort := @Insertion.sort;
  Array_sort_permutes := @Insertion.sort_Permutation;
  Array_sort_ordered := @Insertion.sort_StronglySorted;
  Array_sort_stable := @Insertion.sort_stable;
|}.

#[export] Instance literal_engine : RegExpEngine := {|
  RegExp := string * bool;
  RegExp_new := Literal.compile;
  RegExp_test := Literal.test;
  RegExp_new_empty := Literal.compile_empty;
|}.

#[export] Instance ascii_collation : Collation := {|
  toLowerCase := Literal.lower;
  localeCompare := Literal.compare;
  localeCompare_swap := Literal.compare_swap;
|}.

(** * Properties *)

(** ** Effects *)

Lemma outcome_bind {A B} (m : Effect.M A) (f : A → Effect.M B) :
  Effect.outcome (Effect.bind m f) =
  match Effect.outcome m with
  | Normal a => Effect.outcome (f a)
  | Throw e => Throw e
  end.
Proof.
  destruct m as [t [a | e]]; simpl; [| reflexivity].
  destruct (f a); reflexivity.
Qed.

Lemma trace_bind {A B} (m : Effect.M A) (f : A → Effect.M B) :
  Effect.trace (Effect.bind m f) =
  Effect.trace m ++
  match Effect.outcome m with
  | Normal a => Effect.trace (f a)
  | Throw e => []
  end.
Proof.
  destruct m as [t [a | e]]; simpl.
  - destruct (f a); reflexivity.
  - symmetry. apply app_nil_r.
Qed.

(** A computation that ends normally. *)
Definition returns {A} (m : Effect.M A) : Prop := ∃ a, Effect.outcome m = Normal a.

Lemma every_cons {A} (f : A → Effect.M bool) (x : A) (l : list A) :
  Effect.every f (x :: l) =
  Effect.bind (f x) (λ b, if b then Effect.every f l else Effect.ret false).
Proof. reflexivity. Qed.

Lemma some_cons {A} (f : A → Effect.M bool) (x : A) (l : list A) :
  Effect.some f (x :: l) =
  Effect.bind (f x) (λ b, if b then Effect.ret true else Effect.some f l).
Proof. reflexivity. Qed.

Lemma every_outcome {A} (f : A → Effect.M bool) (l : list A) :
  Forall (λ x, returns (f x)) l →
  Effect.outcome (Effect.every f l) =
  Normal (bool_decide (Forall (λ x, Effect.outcome (f x) = Normal true) l)).
Proof.
  induction 1 as [| x l [b Hb] _ IH].
  - rewrite bool_decide_eq_true_2 by constructor. reflexivity.
  - rewrite every_cons, outcome_bind, Hb. destruct b.
    + rewrite IH. f_equal. apply bool_decide_ext. rewrite Forall_cons. tauto.
    + rewrite bool_decide_eq_false_2; [reflexivity |].
      rewrite Forall_cons. intros [Hx _]. congruence.
Qed.

Lemma some_outcome {A} (f : A → Effect.M bool) (l : list A) :
  Forall (λ x, returns (f x)) l →
  Effect.outcome (Effect.some f l) =
  Normal (bool_decide (Exists (λ x, Effect.outcome (f x) = Normal true) l)).
Proof.
  induction 1 as [| x l [b Hb] _ IH].
  - rewrite bool_decide_eq_false_2; [reflexivity | inversion 1].
  - rewrite some_cons, outcome_bind, Hb. destruct b.
    + rewrite bool_decide_eq_true_2; [reflexivity | left; assumption].
    + rewrite IH. f_equal. apply bool_decide_ext. rewrite Exists_cons.
      split; [tauto | intros [Hx | Hl]; [congruence | assumption]].
Qed.

Lemma filter_outcome {A} (f : A → Effect.M bool) (l : list A) :
  Forall (λ x, returns (f x)) l →
  Effect.outcome (Effect.filter f l) =
  Normal (filter (λ x, Effect.outcome (f x) = Normal true) l).
Proof.
  induction 1 as [| x l [b Hb] _ IH]; simpl; [reflexivity |].
  rewrite outcome_bind, Hb, outcome_bind, IH. simpl. f_equal.
  destruct b.
  - rewrite filter_cons_True by assumption. reflexivity.
  - rewrite filter_cons_False by congruence. reflexivity.
Qed.

Lemma every_trace {A} (f : A → Effect.M bool) (l : list A) :
  (length (Effect.trace (Effect.every f l)) ≤
   sum_list (map (λ x, length (Effect.trace (f x))) l))%nat.
Proof.
  induction l as [| x l IH]; simpl; [lia |].
  rewrite trace_bind, length_app.
  destruct (Effect.outcome (f x)) as [[] |]; simpl; lia.
Qed.

Lemma some_trace {A} (f : A → Effect.M bool) (l : list A) :
  (length (Effect.trace (Effect.some f l)) ≤
   sum_list (map (λ x, length (Effect.trace (f x))) l))%nat.
Proof.
  induction l as [| x l IH]; simpl; [lia |].
  rewrite trace_bind, length_app.
  destruct (Effect.outcome (f x)) as [[] |]; simpl; lia.
Qed.

Lemma filter_trace {A} (f : A → Effect.M bool) (l : list A) :
  Forall (λ x, returns (f x)) l →
  length (Effect.trace (Effect.filter f l)) =
  sum_list (map (λ x, length (Effect.trace (f x))) l).
Proof.
  induction 1 as [| x l [b Hb] Hl IH]; simpl; [reflexivity |].
  rewrite trace_bind, Hb, trace_bind, length_app, length_app.
  pose proof (filter_outcome f l Hl) as Hk. rewrite Hk. simpl.
  rewrite IH. lia.
Qed.

(** ** The evaluator *)

(** Induction over a tree whose groups hold lists of trees. *)
Lemma FilterNode_nested_ind (P : FilterNode → Prop) :
  (∀ c, P (Condition c)) →
  (∀ id operator children, Forall P children → P (Group id operator children)) →
  ∀ node, P node.
Proof.
  intros Hcond Hgroup. fix IH 1. intros [c | id operator children].
  - apply Hcond.
  - apply Hgroup. induction children as [| child children IHc]; constructor.
    + apply IH.
    + exact IHc.
Qed.

Section EvaluatorFacts.
Context `{RegExpEngine} `{NumberFormat}.

Lemma evaluateCondition_cases (c : FilterCondition) (row : Row) :
  evaluateCondition c row =
  if decide (regex c = EmptyString) then ([], Normal true)
  else
    match RegExp_new (regex c) (flags_of c) with
    | Some re =>
        let value := get row (column c) in
        ([NewRegExp (regex c) (flags_of c)],
         Normal (RegExp_test re (if nullish value then EmptyString else String_ value)))
    | None => ([NewRegExp (regex c) (flags_of c)], Normal false)
    end.
Proof.
  unfold evaluateCondition. destruct (decide (regex c = EmptyString)); [reflexivity |].
  unfold new_RegExp, mbind, Effect_bind. simpl.
  destruct (RegExp_new (regex c) (flags_of c)); reflexivity.
Qed.

Lemma evaluateCondition_returns (c : FilterCondition) (row : Row) :
  returns (evaluateCondition c row).
Proof.
  rewrite evaluateCondition_cases. unfold returns.
  destruct (decide (regex c = EmptyString)); [eauto |].
  destruct (RegExp_new (regex c) (flags_of c)); simpl; eauto.
Qed.

Lemma evaluateNode_group (id : string) (operator : FilterOperator)
    (children : list FilterNode) (row : Row) :
  evaluateNode (Group id operator children) row =
  match children with
  | [] => Effect.ret true
  | _ =>
      match operator with
      | AND => Effect.every (λ child, evaluateNode child row) children
      | OR => Effect.some (λ child, evaluateNode child row) children
      end
  end.
Proof. reflexivity. Qed.

Lemma evaluateNode_returns (node : FilterNode) (row : Row) :
  returns (evaluateNode node row).
Proof.
  induction node as [c | id operator children IH] using FilterNode_nested_ind.
  - apply evaluateCondition_returns.
  - rewrite evaluateNode_group. destruct children as [| child children].
    + exists true. reflexivity.
    + destruct operator.
      * eexists. apply every_outcome, IH.
      * eexists. apply some_outcome, IH.
Qed.

Lemma evaluateNode_parses (node : FilterNode) (row : Row) :
  (regexParses (evaluateNode node row) ≤ conditions node)%nat.
Proof.
  unfold regexParses.
  induction node as [c | id operator children IH] using FilterNode_nested_ind.
  - simpl. rewrite evaluateCondition_cases.
    destruct (decide (regex c = EmptyString)); simpl; [lia |].
    destruct (RegExp_new (regex c) (flags_of c)); simpl; lia.
  - rewrite evaluateNode_group.
    assert (sum_list (map (λ child, length (Effect.trace (evaluateNode child row))) children)
            ≤ sum_list (map conditions children))%nat as Hsum.
    { induction IH as [| child children Hchild _ IHsum]; simpl; lia. }
    destruct children as [| child children]; [simpl; lia |].
    destruct operator.
    + etrans; [apply every_trace | exact Hsum].
    + etrans; [apply some_trace | exact Hsum].
Qed.

Lemma filterData_outcome (root : FilterNode) (data : list Row) :
  Effect.outcome (filterData root data) =
  Normal (filter (λ row, Effect.outcome (createEvaluator root row) = Normal true) data).
Proof.
  apply filter_outcome, Forall_forall. intros row _. apply evaluateNode_returns.
Qed.

Lemma filterData_parses (root : FilterNode) (data : list Row) :
  regexParses (filterData root data) =
  sum_list (map (λ row, regexParses (createEvaluator root row)) data).
Proof.
  apply filter_trace, Forall_forall. intros row _. apply evaluateNode_returns.
Qed.

End EvaluatorFacts.

(** ** Filter evaluation *)

(** C1: a condition whose pattern is the empty string evaluates to true; a
    group with no children evaluates to true, whatever its operator; an AND
    group evaluates to true exactly when every child does; an OR group that
    has children evaluates to true exactly when some child does. The result
    is a function of the tree and the row alone: [createEvaluator] takes
    nothing else, reads neither the store nor the component, records no
    effect but the construction of regular expressions, and ends normally
    with a boolean on every tree and row. *)
Theorem evaluateNode_semantics `{RegExpEngine} `{NumberFormat} :
  (∀ id column caseSensitive row,
     Effect.outcome
       (evaluateNode
          (Condition {| cond_id := id; column := column; regex := EmptyString;
                        caseSensitive := caseSensitive |}) row) = Normal true)
  ∧ (∀ id operator row,
       Effect.outcome (evaluateNode (Group id operator []) row) = Normal true)
  ∧ (∀ id children row,
       Effect.outcome (evaluateNode (Group id AND children) row) = Normal true
       ↔ Forall (λ child, Effect.outcome (evaluateNode child row) = Normal true) children)
  ∧ (∀ id child children row,
       Effect.outcome (evaluateNode (Group id OR (child :: children)) row) = Normal true
       ↔ Exists (λ c, Effect.outcome (evaluateNode c row) = Normal true) (child :: children))
  ∧ (∀ root row, ∃ b : bool, Effect.outcome (createEvaluator root row) = Normal b).
Proof.
  assert (∀ children row,
            Forall (λ child, returns (evaluateNode child row)) children) as Hret.
  { intros. apply Forall_forall. intros. apply evaluateNode_returns. }
  split; [| split; [| split; [| split]]].
  - intros. change (evaluateNode (Condition ?c) ?r) with (evaluateCondition c r).
    rewrite evaluateCondition_cases. reflexivity.
  - reflexivity.
  - intros id children row. rewrite evaluateNode_group.
    destruct children as [| child children].
    + split; [constructor | reflexivity].
    + rewrite every_outcome by apply Hret. split.
      * intros [= Hall]. apply bool_decide_eq_true_1 in Hall. exact Hall.
      * intros Hall. f_equal. apply bool_decide_eq_true_2. exact Hall.
  - intros id child children row.
    rewrite evaluateNode_group, some_outcome by apply Hret. split.
    + intros [= Hsome]. apply bool_decide_eq_true_1 in Hsome. exact Hsome.
    + intros Hsome. f_equal. apply bool_decide_eq_true_2. exact Hsome.
  - intros. apply evaluateNode_returns.
Qed.

(** C5: a condition whose pattern the engine rejects evaluates to false on
    every row, and filtering a row set never ends in an exception, whatever
    the tree holds: it returns the rows on which the tree evaluates to
    true. *)
Theorem invalid_pattern_fails_closed `{RegExpEngine} `{NumberFormat} (c : FilterCondition) :
  RegExp_new (regex c) (flags_of c) = None →
  (∀ row, Effect.outcome (evaluateNode (Condition c) row) = Normal false)
  ∧ (∀ root data,
       Effect.outcome (filterData root data) =
       Normal (filter (λ row, Effect.outcome (createEvaluator root row) = Normal true) data)).
Proof.
  intros Hinvalid. split.
  - intros row. simpl. rewrite evaluateCondition_cases.
    destruct (decide (regex c = EmptyString)) as [Hempty | _].
    + rewrite Hempty in Hinvalid.
      destruct (RegExp_new_empty (flags_of c)) as [re Hre]. congruence.
    + rewrite Hinvalid. reflexivity.
  - apply filterData_outcome.
Qed.

(** An unbalanced parenthesis, which the engine rejects (as JavaScript
    does). *)
Definition unbalanced : FilterCondition :=
  {| cond_id := "c1"; column := "name"; regex := "("; caseSensitive := None |}.

Lemma invalid_pattern_fails_closed_witness :
  RegExp_new (regex unbalanced) (flags_of unbalanced) = None
  ∧ (∀ row, Effect.outcome (evaluateNode (Condition unbalanced) row) = Normal false)
  ∧ (∀ root data,
       Effect.outcome (filterData root data) =
       Normal (filter (λ row, Effect.outcome (createEvaluator root row) = Normal true) data)).
Proof.
  split; [reflexivity | apply (invalid_pattern_fails_closed unbalanced); reflexivity].
Defined.

(** ** The cost of filtering *)

Definition name_has_a : FilterNode :=
  Group "root" AND
    [Condition {| cond_id := "c1"; column := "name"; regex := "a";
                  caseSensitive := None |}].

Definition alice : Row := {[ "name" := VStr "alice" ]}.
Definition bob : Row := {[ "name" := VStr "bob" ]}.

(** C8, as stated: a tree with one condition, applied to two rows,
    constructs two regular expressions, one per row, not one per compile. *)
Lemma regex_rebuilt_for_each_row :
  conditions name_has_a = 1%nat
  ∧ Effect.trace (filterData name_has_a [alice; bob])
    = [NewRegExp "a" "i"; NewRegExp "a" "i"]
  ∧ regexParses (filterData name_has_a [alice; bob]) = 2%nat.
Proof. vm_compute. repeat split. Qed.

(** C8, amended: the regular expression of a condition is constructed each
    time the condition is evaluated, that is once per row that reaches it:
    the constructions of a filtering are the sum over the rows of those of
    each row; a row costs at most one construction per condition of the tree,
    and a condition evaluated on a row costs exactly one unless its pattern
    is empty; so N rows cost at most (conditions × N) constructions, and
    exactly N for a tree of a single condition with a pattern. *)
Theorem regex_built_per_row `{RegExpEngine} `{NumberFormat} :
  (∀ root data,
     regexParses (filterData root data) =
     sum_list (map (λ row, regexParses (createEvaluator root row)) data))
  ∧ (∀ root row, (regexParses (createEvaluator root row) ≤ conditions root)%nat)
  ∧ (∀ c row,
       regexParses (evaluateNode (Condition c) row) =
       if decide (regex c = EmptyString) then 0%nat else 1%nat)
  ∧ (∀ root data,
       (regexParses (filterData root data) ≤ conditions root * length data)%nat)
  ∧ (∀ id operator c data,
       regexParses (filterData (Group id operator [Condition c]) data) =
       if decide (regex c = EmptyString) then 0%nat else length data).
Proof.
  assert (∀ c row,
            regexParses (evaluateNode (Condition c) row) =
            if decide (regex c = EmptyString) then 0%nat else 1%nat) as Hleaf.
  { intros c row. unfold regexParses. simpl. rewrite evaluateCondition_cases.
    destruct (decide (regex c = EmptyString)); [reflexivity |].
    destruct (RegExp_new (regex c) (flags_of c)); reflexivity. }
  split; [apply @filterData_parses |].
  split; [intros; apply evaluateNode_parses |].
  split; [exact Hleaf |].
  split.
  - intros root data. rewrite filterData_parses.
    induction data as [| row data IH]; simpl; [lia |].
    pose proof (evaluateNode_parses root row). unfold createEvaluator in *. lia.
  - intros id operator c data. rewrite filterData_parses.
    assert (∀ row, regexParses (createEvaluator (Group id operator [Condition c]) row)
                   = regexParses (evaluateNode (Condition c) row)) as Hone.
    { intros row. unfold createEvaluator, regexParses.
      rewrite evaluateNode_group.
      destruct operator.
      - rewrite every_cons, trace_bind.
        destruct (Effect.outcome (evaluateNode (Condition c) row)) as [[] |];
          simpl; rewrite app_nil_r; reflexivity.
      - rewrite some_cons, trace_bind.
        destruct (Effect.outcome (evaluateNode (Condition c) row)) as [[] |];
          simpl; rewrite app_nil_r; reflexivity. }
    erewrite map_ext; [| intros row; rewrite Hone, Hleaf; reflexivity].
    destruct (decide (regex c = EmptyString));
      induction data as [| row data IH]; simpl in *; lia.
Qed.

(** ** Removing a child and the side table *)

Lemma removeFromStore_lookup (node : FilterNode) :
  ∀ (store : Store) (k : string),
    removeFromStore node store !! k =
    if decide (k ∈ conditionIds node) then None else store !! k.
Proof.
  induction node as [c | id operator children IH] using FilterNode_nested_ind;
    intros store k.
  - simpl. rewrite lookup_delete.
    destruct (decide (cond_id c = k)) as [Heq | Hne];
      destruct (decide (k ∈ [cond_id c])) as [Hin | Hout]; try reflexivity.
    + exfalso. apply Hout. apply list_elem_of_singleton. congruence.
    + apply list_elem_of_singleton in Hin. congruence.
  - simpl. revert store.
    induction IH as [| child children Hchild _ IHchildren]; intros store; simpl.
    + destruct (decide (k ∈ [])) as [Hin | _]; [inversion Hin | reflexivity].
    + rewrite IHchildren, Hchild.
      destruct (decide (k ∈ concat (map conditionIds children))) as [Hin | Hout].
      * rewrite decide_True by (apply elem_of_app; right; exact Hin). reflexivity.
      * destruct (decide (k ∈ conditionIds child)) as [Hin' | Hout'].
        -- rewrite decide_True by (apply elem_of_app; left; exact Hin'). reflexivity.
        -- rewrite decide_False; [reflexivity |].
           rewrite elem_of_app. tauto.
Qed.

Lemma nodeIds_split (node : FilterNode) (k : string) :
  k ∈ nodeIds node ↔ k ∈ conditionIds node ∨ k ∈ groupIds node.
Proof.
  induction node as [c | id operator children IH] using FilterNode_nested_ind.
  - simpl. rewrite list_elem_of_singleton. split; [tauto |].
    intros [Hk | Hk]; [exact Hk | inversion Hk].
  - simpl. rewrite !elem_of_cons.
    assert (k ∈ concat (map nodeIds children)
            ↔ k ∈ concat (map conditionIds children)
              ∨ k ∈ concat (map groupIds children)) as Hchildren.
    { induction IH as [| child children Hchild _ IHchildren]; simpl.
      - split; [inversion 1 | intros [Hk | Hk]; inversion Hk].
      - rewrite !elem_of_app, Hchild, IHchildren. tauto. }
    rewrite Hchildren. tauto.
Qed.

(** C10: removing the child at an index of a group hands on the group
    without that child (the children before it followed by the children after
    it) and deletes from the side table the entry of every condition of the
    removed subtree, at any depth, leaving every other entry as it was;
    the side table being keyed by conditions only (no group of the removed
    subtree has an entry), no entry keyed by the id of a removed node is
    left. *)
Theorem handleRemoveChild_discards_subtree (group : FilterGroup) (index : nat)
    (store : Store) (child : FilterNode) :
  children group !! index = Some child →
  (∀ id, id ∈ groupIds child → store !! id = None) →
  ∃ updated store',
    handleRemoveChild group index store = Some (updated, store')
    ∧ group_id updated = group_id group
    ∧ operator updated = operator group
    ∧ children updated = take index (children group) ++ drop (S index) (children group)
    ∧ (∀ id, id ∈ conditionIds child → store' !! id = None)
    ∧ (∀ id, id ∉ conditionIds child → store' !! id = store !! id)
    ∧ (∀ id, id ∈ nodeIds child → store' !! id = None).
Proof.
  intros Hchild Hgroups. unfold handleRemoveChild. rewrite Hchild.
  eexists _, _. split; [reflexivity |]. simpl.
  split; [reflexivity |]. split; [reflexivity |].
  split; [apply delete_take_drop |].
  split; [| split].
  - intros id Hid. rewrite removeFromStore_lookup, decide_True by exact Hid.
    reflexivity.
  - intros id Hid. rewrite removeFromStore_lookup, decide_False by exact Hid.
    reflexivity.
  - intros id Hid. rewrite removeFromStore_lookup.
    destruct (decide (id ∈ conditionIds child)) as [_ | Hout]; [reflexivity |].
    apply nodeIds_split in Hid as [Hid | Hid]; [contradiction | auto].
Qed.

Definition sample_value (regex : string) : FilterValue :=
  {| value_column := "name"; value_regex := regex; value_caseSensitive := false |}.

Definition sample_condition (id : string) : FilterNode :=
  Condition {| cond_id := id; column := "name"; regex := EmptyString;
               caseSensitive := Some false |}.

(** A group holding a condition and a sub-group that itself nests a
    sub-group, with an entry in the side table for each condition. *)
Definition nested_subgroup : FilterNode :=
  Group "g2" OR [sample_condition "c2"; Group "g3" AND [sample_condition "c3"]].

Definition nested_group : FilterGroup :=
  {| group_id := "g1"; operator := AND;
     children := [sample_condition "c1"; nested_subgroup] |}.

Definition nested_store : Store :=
  <["c1" := sample_value "a"]> (<["c2" := sample_value "b"]> (<["c3" := sample_value "c"]> ∅)).

Lemma handleRemoveChild_discards_subtree_witness :
  ∃ updated store',
    handleRemoveChild nested_group 1 nested_store = Some (updated, store')
    ∧ group_id updated = "g1"
    ∧ operator updated = AND
    ∧ children updated = [sample_condition "c1"]
    ∧ (∀ id, id ∈ conditionIds nested_subgroup → store' !! id = None)
    ∧ (∀ id, id ∉ conditionIds nested_subgroup → store' !! id = nested_store !! id)
    ∧ (∀ id, id ∈ nodeIds nested_subgroup → store' !! id = None).
Proof.
  apply (handleRemoveChild_discards_subtree nested_group 1 nested_store nested_subgroup).
  - reflexivity.
  - intros id Hid. simpl in Hid.
    repeat (apply elem_of_cons in Hid as [-> | Hid]); [reflexivity .. | inversion Hid].
Defined.

(** ** The apply and debounce protocol *)

(** Every armed timer is the one [debouncedTimerRef] holds. *)
Definition timers_tracked (s : AdvancedFilter) : Prop :=
  ∀ timer, timer ∈ armedTimers s → debouncedTimerRef s = Some timer.

Lemma applyFilter_timers (s : AdvancedFilter) :
  armedTimers (applyFilter s) = armedTimers s
  ∧ debouncedTimerRef (applyFilter s) = debouncedTimerRef s
  ∧ isAutoApply (applyFilter s) = isAutoApply s
  ∧ filterRoot (applyFilter s) = filterRoot s
  ∧ onFilterChange (applyFilter s) =
    onFilterChange s ++
    [Evaluator (buildFilterWithValues (group_node (filterRoot s)) (filterValuesStore s)).1].
Proof.
  unfold applyFilter.
  destruct (buildFilterWithValues (group_node (filterRoot s)) (filterValuesStore s)).
  repeat split.
Qed.

Lemma cancelDebounce_clears (s : AdvancedFilter) :
  timers_tracked s →
  armedTimers (cancelDebounce s) = ∅
  ∧ debouncedTimerRef (cancelDebounce s) = None
  ∧ isAutoApply (cancelDebounce s) = isAutoApply s
  ∧ filterRoot (cancelDebounce s) = filterRoot s
  ∧ filterValuesStore (cancelDebounce s) = filterValuesStore s
  ∧ onFilterChange (cancelDebounce s) = onFilterChange s.
Proof.
  intros Htracked. unfold cancelDebounce.
  destruct (debouncedTimerRef s) as [timer |] eqn:Href; simpl.
  - repeat split. apply set_eq. intros t. split; [| set_solver].
    intros [Ht Hne]%elem_of_difference. apply Htracked in Ht.
    exfalso. apply Hne. apply elem_of_singleton. congruence.
  - repeat split; try assumption. apply set_eq. intros t. split; [| set_solver].
    intros Ht. apply Htracked in Ht. congruence.
Qed.

Lemma triggerDebouncedApply_tracked (s : AdvancedFilter) :
  timers_tracked s → timers_tracked (triggerDebouncedApply s).
Proof.
  intros Htracked. unfold triggerDebouncedApply.
  destruct (cancelDebounce_clears s Htracked) as (Harmed & Href & _).
  destruct (isAutoApply (cancelDebounce s)); intros t; simpl.
  - rewrite Harmed. intros [Ht | Ht]%elem_of_union.
    + apply not_elem_of_empty in Ht. contradiction.
    + apply elem_of_singleton in Ht. congruence.
  - rewrite Harmed. set_solver.
Qed.

Lemma react_tracked (s : AdvancedFilter) (signal : Signal) :
  timers_tracked s → timers_tracked (react s signal).
Proof.
  intros Htracked. destruct signal; simpl.
  - apply triggerDebouncedApply_tracked. exact Htracked.
  - apply triggerDebouncedApply_tracked. exact Htracked.
  - unfold handleEnterKey. destruct (isAutoApply s); simpl; [exact Htracked |].
    destruct (cancelDebounce_clears s Htracked) as (Harmed & _).
    destruct (applyFilter_timers (cancelDebounce s)) as (Harmed' & _).
    intros t. rewrite Harmed', Harmed. set_solver.
  - exact Htracked.
  - exact Htracked.
  - unfold timerFires. destruct (decide (timer ∈ armedTimers s)) as [Hin | _];
      [| exact Htracked].
    destruct (applyFilter_timers (clearTimeout timer s)) as (Harmed' & _).
    intros t. rewrite Harmed'. simpl. intros [Ht Hne]%elem_of_difference.
    exfalso. apply Hne, elem_of_singleton.
    apply Htracked in Ht, Hin. congruence.
  - unfold onCleanup. destruct (debouncedTimerRef s) as [timer |] eqn:Href;
      [| exact Htracked].
    intros t. simpl. intros [Ht Hne]%elem_of_difference.
    exfalso. apply Hne, elem_of_singleton. apply Htracked in Ht. congruence.
  - exact Htracked.
Qed.

Lemma reachable_tracked (s : AdvancedFilter) : reachable s → timers_tracked s.
Proof.
  induction 1 as [| s signal _ IH].
  - intros t. simpl. set_solver.
  - apply react_tracked, IH.
Qed.

(** The component with auto-apply on (the default), after the user typed
    the pattern [a] into the condition [c1]: a debounce timer is armed. *)
Definition edited_on_auto : AdvancedFilter :=
  react (mount "root" "c1" None ∅) (InputEdit "c1" "name" "a" false).

(** The same edit, then auto-apply is switched off while the timer is still
    armed. *)
Definition edited_then_manual : AdvancedFilter :=
  react edited_on_auto (SetAutoApply false).

(** The tree of the mounted component with the typed values merged in. *)
Definition edited_tree : FilterNode :=
  Group "root" AND
    [Condition {| cond_id := "c1"; column := "name"; regex := "a";
                  caseSensitive := Some false |}].

(** C6, as stated: with auto-apply enabled and a timer armed, the Enter key
    changes nothing: the timer stays armed and nothing is published. *)
Lemma enter_key_ignored_on_auto_apply :
  isAutoApply edited_on_auto = true
  ∧ debouncedTimerRef edited_on_auto = Some 1%positive
  ∧ react edited_on_auto EnterKey = edited_on_auto
  ∧ armedTimers (react edited_on_auto EnterKey) = {[ 1%positive ]}
  ∧ onFilterChange (react edited_on_auto EnterKey) = [].
Proof.
  repeat split.
Qed.

(** C6, amended: when the Enter key arrives while auto-apply is disabled, any
    armed timer is cancelled (no timer is left armed) and the current tree,
    with the live input values merged in, is compiled and published at once;
    while auto-apply is enabled the Enter key does nothing. *)
Theorem handleEnterKey_commits_when_manual (s : AdvancedFilter) :
  reachable s →
  if isAutoApply s
  then handleEnterKey s = s
  else armedTimers (handleEnterKey s) = ∅
       ∧ debouncedTimerRef (handleEnterKey s) = None
       ∧ filterRoot (handleEnterKey s) = filterRoot s
       ∧ onFilterChange (handleEnterKey s) =
         onFilterChange s ++
         [Evaluator (buildFilterWithValues (group_node (filterRoot s))
                       (filterValuesStore s)).1].
Proof.
  intros Hreach. apply reachable_tracked in Hreach.
  unfold handleEnterKey. destruct (isAutoApply s); simpl; [reflexivity |].
  destruct (cancelDebounce_clears s Hreach) as (Harmed & Href & _ & Hroot & Hstore & Hpub).
  destruct (applyFilter_timers (cancelDebounce s)) as (Harmed' & Href' & _ & Hroot' & Hpub').
  rewrite Harmed', Href', Hroot', Hpub', Harmed, Href, Hroot, Hstore, Hpub.
  repeat split.
Qed.

Lemma handleEnterKey_commits_when_manual_witness :
  armedTimers edited_then_manual = {[ 1%positive ]}
  ∧ armedTimers (handleEnterKey edited_then_manual) = ∅
  ∧ debouncedTimerRef (handleEnterKey edited_then_manual) = None
  ∧ filterRoot (handleEnterKey edited_then_manual) = filterRoot edited_then_manual
  ∧ onFilterChange (handleEnterKey edited_then_manual) =
    onFilterChange edited_then_manual ++
    [Evaluator (buildFilterWithValues (group_node (filterRoot edited_then_manual))
                  (filterValuesStore edited_then_manual)).1].
Proof.
  split.
  - simpl. apply set_eq. intros t. set_solver.
  - apply (handleEnterKey_commits_when_manual edited_then_manual).
    repeat constructor.
Defined.

(** C7, on the code: disposal cancels the armed timer, but a reset leaves it
    armed, and when it fires afterwards the tree as it stood is compiled and
    published after the reset's constant-true predicate. *)
Theorem handleReset_leaves_the_timer_armed (s : AdvancedFilter) (timer : positive) :
  reachable s →
  timer ∈ armedTimers s →
  armedTimers (onCleanup s) = ∅
  ∧ armedTimers (handleReset s) = armedTimers s
  ∧ onFilterChange (timerFires timer (handleReset s)) =
    onFilterChange s ++
    [MatchAll;
     Evaluator (buildFilterWithValues (group_node (filterRoot s)) (filterValuesStore s)).1].
Proof.
  intros Hreach Harmed. apply reachable_tracked in Hreach.
  split; [| split].
  - unfold onCleanup. rewrite (Hreach timer Harmed). simpl.
    apply set_eq. intros t. split; [| set_solver].
    intros [Ht Hne]%elem_of_difference. exfalso. apply Hne, elem_of_singleton.
    apply Hreach in Ht, Harmed. congruence.
  - reflexivity.
  - unfold timerFires. rewrite decide_True by exact Harmed.
    destruct (applyFilter_timers (clearTimeout timer (handleReset s)))
      as (_ & _ & _ & _ & Hpub).
    rewrite Hpub. simpl. rewrite <- app_assoc. reflexivity.
Qed.

Lemma handleReset_leaves_the_timer_armed_witness :
  armedTimers (onCleanup edited_on_auto) = ∅
  ∧ armedTimers (handleReset edited_on_auto) = armedTimers edited_on_auto
  ∧ onFilterChange (timerFires 1 (handleReset edited_on_auto)) =
    onFilterChange edited_on_auto ++
    [MatchAll;
     Evaluator (buildFilterWithValues (group_node (filterRoot edited_on_auto))
                  (filterValuesStore edited_on_auto)).1].
Proof.
  apply (handleReset_leaves_the_timer_armed edited_on_auto 1).
  - repeat constructor.
  - simpl. set_solver.
Defined.

(** The failing run of C7 evaluated: edit, reset, then the timer fires. The
    predicate published last, the one the table then filters with, rejects a
    row the reset had let through. *)
Example reset_then_late_publish :
  onFilterChange (react (react edited_on_auto Reset) (TimerFires 1))
  = [MatchAll; Evaluator edited_tree]
  ∧ Effect.outcome (runPredicate MatchAll {[ "name" := VStr "bob" ]}) = Normal true
  ∧ Effect.outcome (runPredicate (Evaluator edited_tree) {[ "name" := VStr "bob" ]})
    = Normal false.
Proof. vm_compute. repeat split. Qed.

(** ** Column resize *)

(** The clamp as an else-if chain: the second test is made only when the
    first one fails. *)
Definition clamp_else_if (leftStartWidth rightStartWidth delta minWidth : Z) : Z * Z :=
  let total := leftStartWidth + rightStartWidth in
  let newLeft := leftStartWidth + delta in
  let newRight := rightStartWidth - delta in
  if decide (newLeft < minWidth) then (minWidth, total - minWidth)
  else if decide (newRight < minWidth) then (total - minWidth, minWidth)
  else (newLeft, newRight).

(** Two columns of 30px and 40px, narrower together than twice the minimum
    of 50px, as a table with many columns in little room renders them. *)
Definition narrow_pair : ResizeData :=
  {| leftColumn := "a"; rightColumn := "b"; startX := 0;
     leftStartWidth := 30; rightStartWidth := 40; minWidth := 50 |}.

(** C3, as stated: dragging the narrow pair 10px to the left, the code
    publishes 20px/50px where the else-if chain gives 50px/20px. *)
Lemma resize_is_not_an_else_if_chain :
  handleResizeMove (Some narrow_pair) (-10) = [("a", "20px"); ("b", "50px")]
  ∧ clamp_else_if 30 40 (-10) 50 = (50, 20).
Proof. split; vm_compute; reflexivity. Qed.

(** C3, amended: on a move with a pointer delta other than zero the two
    widths published are newLeft = leftStartWidth + delta and
    newRight = rightStartWidth - delta clamped by two successive tests, the
    second made after the first whatever its result: if newLeft < minWidth
    then newLeft = minWidth and newRight = total - minWidth; then, if
    newRight (as it now stands) < minWidth, newRight = minWidth and
    newLeft = total - minWidth. The total width of the pair is conserved;
    when the pair is at least twice the minimum wide, the result is that of
    the else-if chain and both widths are at least the minimum. *)
Theorem handleResizeMove_conserves_total (d : ResizeData) (clientX : Z) :
  clientX ≠ startX d →
  let delta := clientX - startX d in
  let total := leftStartWidth d + rightStartWidth d in
  ∃ newLeft newRight,
    handleResizeMove (Some d) clientX =
      [(leftColumn d, px newLeft); (rightColumn d, px newRight)]
    ∧ newLeft + newRight = total
    ∧ (let afterFirst :=
         if decide (leftStartWidth d + delta < minWidth d)
         then (minWidth d, total - minWidth d)
         else (leftStartWidth d + delta, rightStartWidth d - delta) in
       (newLeft, newRight) =
       if decide (afterFirst.2 < minWidth d)
       then (total - minWidth d, minWidth d)
       else afterFirst)
    ∧ (2 * minWidth d ≤ total →
       (newLeft, newRight) =
         clamp_else_if (leftStartWidth d) (rightStartWidth d) delta (minWidth d)
       ∧ minWidth d ≤ newLeft ∧ minWidth d ≤ newRight).
Proof.
  intros Hmoved delta total. unfold handleResizeMove.
  rewrite decide_False by (subst delta; lia).
  fold delta. fold total. unfold clamp_else_if. fold total.
  destruct (decide (leftStartWidth d + delta < minWidth d)) as [Hl | Hl]; simpl.
  - destruct (decide (total - minWidth d < minWidth d)) as [Hr | Hr]; simpl.
    + eexists _, _. split; [reflexivity |].
      repeat split; try lia.
    + eexists _, _. split; [reflexivity |].
      repeat split; try lia.
  - destruct (decide (rightStartWidth d - delta < minWidth d)) as [Hr | Hr]; simpl.
    + eexists _, _. split; [reflexivity |].
      repeat split; try lia.
    + eexists _, _. split; [reflexivity |].
      repeat split; try lia.
Qed.

(** Two columns of 100px each and a minimum of 50px. *)
Definition even_pair : ResizeData :=
  {| leftColumn := "a"; rightColumn := "b"; startX := 0;
     leftStartWidth := 100; rightStartWidth := 100; minWidth := 50 |}.

Lemma handleResizeMove_conserves_total_witness :
  ∃ newLeft newRight,
    handleResizeMove (Some even_pair) 70 = [("a", px newLeft); ("b", px newRight)]
    ∧ newLeft + newRight = 200
    ∧ (newLeft, newRight) = (150, 50)
    ∧ (2 * 50 ≤ 200 →
       (newLeft, newRight) = clamp_else_if 100 100 70 50
       ∧ 50 ≤ newLeft ∧ 50 ≤ newRight).
Proof.
  apply (handleResizeMove_conserves_total even_pair 70). discriminate.
Defined.

(** The two runs the specification lists. *)
Example resize_by_30 :
  handleResizeMove (Some even_pair) 30 = [("a", "130px"); ("b", "70px")].
Proof. vm_compute. reflexivity. Qed.

Example resize_by_70 :
  handleResizeMove (Some even_pair) 70 = [("a", "150px"); ("b", "50px")].
Proof. vm_compute. reflexivity. Qed.

(** ** Visible columns *)

Definition columns_abc : list ColumnDefinition :=
  [ {| key := "a"; label := "A" |}; {| key := "b"; label := "B" |};
    {| key := "c"; label := "C" |} ].

(** C9, as stated: column [a] toggled off and on again stands last in the
    visible-columns sequence, yet it is displayed and exported first, where
    the column definitions have it. *)
Lemma toggled_column_keeps_its_place :
  toggleColumn "a" (toggleColumn "a" ["a"; "b"; "c"]) = ["b"; "c"; "a"]
  ∧ map key (visibleColumns columns_abc ["b"; "c"; "a"]) = ["a"; "b"; "c"]
  ∧ handleExport visible [] [] columns_abc ["b"; "c"; "a"] = BOM +:+ "A,B,C".
Proof. repeat split. Qed.

(** C9, amended: the table and the CSV export both emit the visible columns
    in the order of the column definitions, keeping those whose key occurs in
    the visible-columns sequence; the position of a key in that sequence
    plays no part, so a column toggled off and back on (appended at the end
    of the sequence) is displayed and exported where it was before. *)
Theorem visibleColumns_in_definition_order `{NumberFormat} (columns : list ColumnDefinition)
    (visibleKeys : list string) :
  visibleColumns columns visibleKeys `sublist_of` columns
  ∧ (∀ col, col ∈ visibleColumns columns visibleKeys
            ↔ col ∈ columns ∧ key col ∈ visibleKeys)
  ∧ (∀ exportType processedData data,
       handleExport exportType processedData data columns visibleKeys =
       BOM +:+ csvContent (visibleColumns columns visibleKeys)
                 (match exportType with visible => processedData | all => data end))
  ∧ (∀ reordered, (∀ k, k ∈ reordered ↔ k ∈ visibleKeys) →
       visibleColumns columns reordered = visibleColumns columns visibleKeys)
  ∧ (∀ k, k ∈ visibleKeys → (1 < length visibleKeys)%nat →
       toggleColumn k (toggleColumn k visibleKeys) = filter (λ k', k' ≠ k) visibleKeys ++ [k]
       ∧ visibleColumns columns (toggleColumn k (toggleColumn k visibleKeys))
         = visibleColumns columns visibleKeys).
Proof.
  assert (∀ reordered, (∀ k, k ∈ reordered ↔ k ∈ visibleKeys) →
            visibleColumns columns reordered = visibleColumns columns visibleKeys)
    as Horder.
  { intros reordered Hsame. unfold visibleColumns.
    apply list_filter_iff. intros col. apply Hsame. }
  split; [apply sublist_filter |].
  split; [intros col; unfold visibleColumns; rewrite list_elem_of_filter; tauto |].
  split; [reflexivity |].
  split; [exact Horder |].
  intros k Hk Hlen.
  assert (toggleColumn k (toggleColumn k visibleKeys)
          = filter (λ k', k' ≠ k) visibleKeys ++ [k]) as Htoggle.
  { unfold toggleColumn at 2.
    rewrite decide_True by exact Hk. rewrite decide_True by exact Hlen.
    unfold toggleColumn. rewrite decide_False; [reflexivity |].
    rewrite list_elem_of_filter. tauto. }
  split; [exact Htoggle |].
  rewrite Htoggle. apply Horder. intros k'.
  rewrite elem_of_app, list_elem_of_filter, list_elem_of_singleton.
  destruct (decide (k' = k)) as [-> | Hne]; tauto.
Qed.

Lemma visibleColumns_in_definition_order_witness :
  toggleColumn "a" (toggleColumn "a" ["a"; "b"; "c"])
  = filter (λ k', k' ≠ "a") ["a"; "b"; "c"] ++ ["a"]
  ∧ visibleColumns columns_abc (toggleColumn "a" (toggleColumn "a" ["a"; "b"; "c"]))
    = visibleColumns columns_abc ["a"; "b"; "c"].
Proof.
  apply (visibleColumns_in_definition_order columns_abc ["a"; "b"; "c"]).
  - apply list_elem_of_here.
  - simpl. lia.
Defined.

(** ** CSV export *)

(** A character occurs in a string. *)
Fixpoint occurs (c : ascii) (s : string) : Prop :=
  match s with
  | EmptyString => False
  | String a s' => a = c ∨ occurs c s'
  end.

#[global] Instance occurs_dec (c : ascii) (s : string) : Decision (occurs c s).
Proof. induction s as [| a s IH]; simpl; apply _. Defined.

Lemma includes_occurs (c : ascii) (s : string) : includes c s = true ↔ occurs c s.
Proof.
  induction s as [| a s IH]; simpl.
  - split; [discriminate | contradiction].
  - destruct (decide (a = c)) as [Heq | Hne]; [tauto |].
    rewrite IH. tauto.
Qed.

(** The text of a cell before quoting: empty for null and undefined, Yes or
    No for a boolean, the string form of anything else. *)
Definition cellText `{NumberFormat} (value : Value) : string :=
  match value with
  | VNull | VUndefined => EmptyString
  | VBool true => "Yes"
  | VBool false => "No"
  | _ => String_ value
  end.

(** A text wrapped in double quotes with its own double quotes doubled. *)
Definition quoted (text : string) : string :=
  String dquote (double_quotes text +:+ String dquote EmptyString).

Definition needs_quoting (text : string) : Prop :=
  occurs comma text ∨ occurs dquote text ∨ occurs LF text.

#[global] Instance needs_quoting_dec (text : string) : Decision (needs_quoting text).
Proof. unfold needs_quoting. apply _. Defined.

Lemma double_quotes_length (s : string) :
  (String.length s ≤ String.length (double_quotes s))%nat.
Proof.
  induction s as [| a s IH]; simpl; [lia |].
  destruct (decide (a = dquote)); simpl; lia.
Qed.

Lemma append_length (s t : string) :
  String.length (s +:+ t) = (String.length s + String.length t)%nat.
Proof. induction s as [| a s IH]; simpl; [reflexivity | rewrite IH; reflexivity]. Qed.

Lemma quoted_differs (text : string) : quoted text ≠ text.
Proof.
  intros Heq. apply (f_equal String.length) in Heq. unfold quoted in Heq.
  simpl in Heq. rewrite append_length in Heq. simpl in Heq.
  pose proof (double_quotes_length text). lia.
Qed.

(** *** The format, in the words of the specification *)

(** Characters are named by their code points: 34 is the double quote, 44
    the comma, 10 the line feed; 239, 187, 191 are the bytes of the
    byte-order mark. *)
Module Csv.

Definition text_of (codes : list nat) : string :=
  String.string_of_list_ascii (map ascii_of_nat codes).

(** The text holds the character of a code point. *)
Definition holds (code : nat) (text : string) : Prop :=
  ascii_of_nat code ∈ String.list_ascii_of_string text.

(** A comma, a double quote or a line feed. *)
Definition must_quote (text : string) : Prop :=
  holds 44 text ∨ holds 34 text ∨ holds 10 text.

#[global] Instance must_quote_dec (text : string) : Decision (must_quote text).
Proof. unfold must_quote, holds. apply _. Defined.

(** Each double quote is written twice; any other character stays. *)
Definition doubled (text : string) : string :=
  String.string_of_list_ascii
    (flat_map (λ c, if decide (c = ascii_of_nat 34)
                    then [ascii_of_nat 34; ascii_of_nat 34] else [c])
       (String.list_ascii_of_string text)).

(** The text between two double quotes, its own double quotes doubled. *)
Definition quoted (text : string) : string :=
  String (ascii_of_nat 34) (doubled text +:+ String (ascii_of_nat 34) EmptyString).

Definition field (text : string) : string :=
  if decide (must_quote text) then quoted text else text.

(** The parts in order, the separator between each two. *)
Fixpoint separated (separator : nat) (parts : list string) : string :=
  match parts with
  | [] => EmptyString
  | [part] => part
  | part :: parts' =>
      part +:+ String (ascii_of_nat separator) (separated separator parts')
  end.

(** The byte-order mark, then the header line and one line per row, each
    line its fields separated by commas, the lines separated by line
    feeds. *)
Definition document (header : list string) (rows : list (list string)) : string :=
  text_of [239; 187; 191]%nat +:+ separated 10 (map (separated 44) (header :: rows)).

End Csv.

Lemma occurs_holds (code : nat) (text : string) :
  occurs (ascii_of_nat code) text ↔ Csv.holds code text.
Proof.
  unfold Csv.holds. induction text as [| a text IH]; simpl.
  - split; [contradiction | inversion 1].
  - rewrite elem_of_cons, IH. split; intros [Ha | Hin]; auto.
Qed.

Lemma needs_quoting_must_quote (text : string) :
  needs_quoting text ↔ Csv.must_quote text.
Proof.
  unfold needs_quoting, Csv.must_quote.
  rewrite <- !occurs_holds. reflexivity.
Qed.

Lemma double_quotes_doubled (text : string) : double_quotes text = Csv.doubled text.
Proof.
  unfold Csv.doubled. induction text as [| a text IH]; simpl; [reflexivity |].
  rewrite IH. unfold dquote.
  destruct (decide (a = ascii_of_nat 34)); reflexivity.
Qed.

Lemma quoted_field (text : string) : quoted text = Csv.quoted text.
Proof. unfold quoted, Csv.quoted. rewrite double_quotes_doubled. reflexivity. Qed.

Lemma join_separated (separator : nat) (parts : list string) :
  join (String (ascii_of_nat separator) EmptyString) parts = Csv.separated separator parts.
Proof.
  induction parts as [| part parts IH]; [reflexivity |].
  destruct parts as [| next parts]; [reflexivity |].
  change (join ?sep (part :: next :: parts))
    with (part +:+ sep +:+ join sep (next :: parts)).
  rewrite IH. reflexivity.
Qed.

(** The row the specification exports: [{a: x,y  b: null  c: true}]. *)
Definition sample_export_row : Row :=
  {[ "a" := VStr "x,y"; "b" := VNull; "c" := VBool true ]}.

(** A cell that holds double quotes: the letter a, a double quote, the
    letter b. *)
Definition quote_cell : Value := VStr (Csv.text_of [97; 34; 98]%nat).

(** C4: a cell is serialized as the empty string for null and undefined, Yes
    or No for a boolean and its string form otherwise, wrapped in double
    quotes with each of its double quotes written twice exactly when it
    holds a comma, a double quote or a line feed; fields are joined by a
    comma, rows by a line feed, after a first row of the labels of the
    visible columns, and the document starts with the byte-order mark. The
    row of the specification gives the body line it lists, a cell holding
    a double quote comes out with that quote doubled, and a safe integer
    comes out as its decimal numeral. *)
Theorem csv_export_format `{NumberFormat} :
  exportCell VNull = EmptyString
  ∧ exportCell VUndefined = EmptyString
  ∧ exportCell (VBool true) = "Yes"
  ∧ exportCell (VBool false) = "No"
  ∧ (∀ n, exportCell (VNum n) = Csv.field (Number_toString n))
  ∧ (∀ text, exportCell (VStr text) = Csv.field text)
  ∧ (∀ value,
       exportCell value = Csv.field (cellText value)
       ∧ (exportCell value = Csv.quoted (cellText value)
          ↔ Csv.must_quote (cellText value)))
  ∧ (∀ exportType processedData data columns visibleKeys,
       let columnsToExport := visibleColumns columns visibleKeys in
       let dataToExport := match exportType with visible => processedData | all => data end in
       handleExport exportType processedData data columns visibleKeys =
       Csv.document (map label columnsToExport)
         (map (λ row, map (λ col, exportCell (get row (key col))) columnsToExport)
            dataToExport))
  ∧ exportCell quote_cell = Csv.text_of [34; 97; 34; 34; 98; 34]%nat
  ∧ exportCell (VNum 2025) = "2025"
  ∧ handleExport visible [sample_export_row] [] columns_abc ["a"; "b"; "c"] =
    Csv.text_of [239; 187; 191;
                 65; 44; 66; 44; 67; 10;
                 34; 120; 44; 121; 34; 44; 44; 89; 101; 115]%nat.
Proof.
  assert (∀ value, exportCell value = Csv.field (cellText value)) as Hcell.
  { assert (∀ text,
              (if includes comma text || includes dquote text || includes LF text
               then quoted text else text) = Csv.field text) as Htest.
    { intros text. unfold Csv.field. rewrite quoted_field.
      destruct (decide (Csv.must_quote text)) as [Hquote | Hplain].
      - apply needs_quoting_must_quote in Hquote.
        destruct Hquote as [Hc | [Hq | Hl]]; apply includes_occurs in Hc || 
          apply includes_occurs in Hq || apply includes_occurs in Hl.
        + rewrite Hc. reflexivity.
        + rewrite Hq, orb_true_r. reflexivity.
        + rewrite Hl, orb_true_r. reflexivity.
      - destruct (includes comma text || includes dquote text || includes LF text)
          eqn:Hany; [| reflexivity].
        exfalso. apply Hplain, needs_quoting_must_quote.
        apply orb_true_iff in Hany as [Hany | Hl].
        + apply orb_true_iff in Hany as [Hc | Hq].
          * left. apply includes_occurs, Hc.
          * right; left. apply includes_occurs, Hq.
        + right; right. apply includes_occurs, Hl. }
    intros [| | [] | n | text]; try reflexivity; apply Htest. }
  split; [reflexivity |]. split; [reflexivity |].
  split; [reflexivity |]. split; [reflexivity |].
  split; [intros n; apply (Hcell (VNum n)) |].
  split; [intros text; apply (Hcell (VStr text)) |].
  split; [| split; [| split; [| split]]].
  - intros value. split; [apply Hcell |]. rewrite Hcell. unfold Csv.field.
    destruct (decide (Csv.must_quote (cellText value))) as [Hquote | Hplain];
      [tauto |].
    split; [| tauto]. intros Heq. exfalso.
    rewrite <- quoted_field in Heq. symmetry in Heq. exact (quoted_differs _ Heq).
  - intros exportType processedData data columns visibleKeys. cbv zeta.
    unfold handleExport, csvContent, visibleColumns, exportRow, Csv.document.
    change (String LF EmptyString) with (String (ascii_of_nat 10) EmptyString).
    change "," with (String (ascii_of_nat 44) EmptyString).
    rewrite (join_separated 10), (join_separated 44).
    rewrite (map_ext _ _ (join_separated 44)). reflexivity.
  - rewrite (Hcell quote_cell). vm_compute. reflexivity.
  - rewrite (Hcell (VNum 2025)). simpl. rewrite Number_toString_safe by lia.
    vm_compute. reflexivity.
  - unfold handleExport, csvContent, exportRow. vm_compute. reflexivity.
Qed.

(** ** Sorting *)

(** The comparison as the specification words it, on the two cells: numbers
    numerically, booleans with false before true, any other pair as
    lowercase strings in locale order, null and undefined counting as the
    empty string. *)
Definition coerced `{NumberFormat} (value : Value) : string :=
  if nullish value then EmptyString else String_ value.

Definition natural_comparison `{Collation} `{NumberFormat} (u v : Value) : Z :=
  match u, v with
  | VNum x, VNum y => x - y
  | VBool x, VBool y => Z.b2z x - Z.b2z y
  | _, _ => localeCompare (toLowerCase (coerced u)) (toLowerCase (coerced v))
  end.

Section SortFacts.
Context `{Collation} `{NumberFormat}.



Lemma natural_comparison_swap (u v : Value) :
  Z.sgn (natural_comparison v u) = - Z.sgn (natural_comparison u v).
Proof.
  destruct u as [| | [] | x | s], v as [| | [] | y | t];
    try apply localeCompare_swap; try reflexivity.
  simpl. rewrite <- Z.sgn_opp. f_equal. lia.
Qed.

(** A column that holds numbers only, or booleans only. *)
Definition numbers_only (column : string) (rows : list Row) : Prop :=
  ∀ row, row ∈ rows → ∃ n, get row column = VNum n.


Lemma numbers_only_consistent (column : string) (direction : SortDirection)
    (rows : list Row) :
  numbers_only column rows → consistent (compareRows column direction) rows.
Proof.
  intros Hnum a b c Ha Hb Hc.
  destruct (Hnum a Ha) as [x Hx], (Hnum b Hb) as [y Hy], (Hnum c Hc) as [z Hz].
  unfold compareRows, getRawValue. rewrite Hx, Hy, Hz. simpl.
  destruct direction; lia.
Qed.



End SortFacts.

Definition row_n (n : Z) : Row := {[ "n" := VNum n ]}.





(** A row keyed by the empty string: [{"": n}]. *)
Definition row_unnamed (n : Z) : Row := {[ EmptyString := VNum n ]}.

Definition unnamed_heap : Arrays := {[ 1%positive := [row_unnamed 2; row_unnamed 1] ]}.

Definition unnamed_ascending : SortState :=
  {| sort_column := Some EmptyString; direction := Some asc |}.

(** A column keyed by the empty string: [!column] holds of it as it does of
    null, so with that column and the direction ascending (the state
    [handleSortChange] sets on a click of its header) [sortData] returns the
    input array itself, its rows in their order 2, 1. *)
Example empty_column_key_is_not_sorted :
  sort_column unnamed_ascending ≠ None
  ∧ direction unnamed_ascending ≠ None
  ∧ sortData unnamed_ascending unnamed_heap 1 = (1%positive, unnamed_heap)
  ∧ unnamed_heap !! 1%positive = Some [row_unnamed 2; row_unnamed 1]
  ∧ compareRows EmptyString asc (row_unnamed 2) (row_unnamed 1) = 1.
Proof. repeat split; discriminate. Qed.

Definition sample_heap : Arrays := {[ 1%positive := [row_n 3; row_n 1; row_n 2] ]}.

Definition by_n (direction : SortDirection) : SortState :=
  {| sort_column := Some "n"; direction := Some direction |}.

(** The run the specification lists: ascending gives 1, 2, 3 in a new array
    and leaves the input array as it was; descending gives 3, 2, 1. *)
Example sort_by_n_ascending :
  sortData (by_n asc) sample_heap 1 =
  (2%positive,
   <[2%positive := [row_n 1; row_n 2; row_n 3]]> sample_heap).
Proof. vm_compute. reflexivity. Qed.

Example sort_by_n_descending :
  sortData (by_n desc) sample_heap 1 =
  (2%positive,
   <[2%positive := [row_n 3; row_n 2; row_n 1]]> sample_heap).
Proof. vm_compute. reflexivity. Qed.



(** * More of the component *)

(** ** Editing the tree: the other handlers of FilterGroupBuilder *)

(** An entry of [props.columns] of the filter: [{value, label}]. *)
Record ColumnOption : Type := {
  option_value : string;
  option_label : string;
}.

(** [props.columns[0]?.value || ""] *)
Definition firstColumn (columns : list ColumnOption) : string :=
  match columns with
  | first :: _ => option_value first
  | [] => EmptyString
  end.

Definition handleToggleOperator (group : FilterGroup) : FilterGroup :=
  let updated := deepClone group in
  {| group_id := group_id updated;
     operator := match operator updated with AND => OR | OR => AND end;
     children := children updated |}.

(** [newId] is what [generateId()] returned. *)
Definition handleAddCondition (columns : list ColumnOption) (newId : string)
    (group : FilterGroup) (store : Store) : FilterGroup * Store :=
  let defaultColumn := firstColumn columns in
  let store' := setFilterValue newId defaultColumn EmptyString false store in
  let updated := deepClone group in
  ({| group_id := group_id updated;
      operator := operator updated;
      children :=
        children updated ++
        [Condition {| cond_id := newId; column := defaultColumn;
                      regex := EmptyString; caseSensitive := Some false |}] |},
   store').

(** [newConditionId] and [newGroupId] are the two results of [generateId()],
    in the order of the calls. *)
Definition handleAddGroup (columns : list ColumnOption) (newConditionId newGroupId : string)
    (group : FilterGroup) (store : Store) : FilterGroup * Store :=
  let defaultColumn := firstColumn columns in
  let store' := setFilterValue newConditionId defaultColumn EmptyString false store in
  let updated := deepClone group in
  ({| group_id := group_id updated;
      operator := operator updated;
      children :=
        children updated ++
        [Group newGroupId AND
           [Condition {| cond_id := newConditionId; column := defaultColumn;
                         regex := EmptyString; caseSensitive := Some false |}]] |},
   store').

(** ** One condition row (FilterConditionItem) *)

(** The three signals of a mounted row, beside the condition it was given. *)
Record ConditionItem : Type := {
  item_condition : FilterCondition;
  localColumn : string;
  localRegex : string;
  localCaseSensitive : bool;
}.

(** The body of the component up to its signals: the initial values come
    from the store, which gets an entry if it had none. *)
Definition mountConditionItem (condition : FilterCondition) (columns : list ColumnOption)
    (store : Store) : ConditionItem * Store :=
  let '(initialValues, store') :=
    getFilterValue (cond_id condition)
      (if decide (column condition = EmptyString) then firstColumn columns
       else column condition)
      (regex condition)
      (default false (caseSensitive condition)) store in
  ({| item_condition := condition;
      localColumn := value_column initialValues;
      localRegex := value_regex initialValues;
      localCaseSensitive := value_caseSensitive initialValues |},
   store').

Definition handleColumnChange (value : string) (item : ConditionItem) (store : Store) :
    ConditionItem * Store :=
  ({| item_condition := item_condition item; localColumn := value;
      localRegex := localRegex item; localCaseSensitive := localCaseSensitive item |},
   setFilterValue (cond_id (item_condition item)) value (localRegex item)
     (localCaseSensitive item) store).

Definition handleRegexInput (value : string) (item : ConditionItem) (store : Store) :
    ConditionItem * Store :=
  ({| item_condition := item_condition item; localColumn := localColumn item;
      localRegex := value; localCaseSensitive := localCaseSensitive item |},
   setFilterValue (cond_id (item_condition item)) (localColumn item) value
     (localCaseSensitive item) store).

Definition handleCaseSensitiveChange (checked : bool) (item : ConditionItem) (store : Store) :
    ConditionItem * Store :=
  ({| item_condition := item_condition item; localColumn := localColumn item;
      localRegex := localRegex item; localCaseSensitive := checked |},
   setFilterValue (cond_id (item_condition item)) (localColumn item) (localRegex item)
     checked store).

Inductive ItemInput : Type :=
  | ColumnChange (value : string)
  | RegexInput (value : string)
  | CaseSensitiveChange (checked : bool).

Definition itemReact (state : ConditionItem * Store) (input : ItemInput) :
    ConditionItem * Store :=
  match input with
  | ColumnChange value => handleColumnChange value state.1 state.2
  | RegexInput value => handleRegexInput value state.1 state.2
  | CaseSensitiveChange checked => handleCaseSensitiveChange checked state.1 state.2
  end.

(** A handler of a mounted row runs in the component: it sets the row's
    signal, writes the side table, and calls [props.onValueChange], which the
    group builders pass down from AdvancedFilter's [handleValueChange]. *)
Definition rowInput (input : ItemInput) (item : ConditionItem) (s : AdvancedFilter) :
    ConditionItem * AdvancedFilter :=
  let '(item', store') := itemReact (item, filterValuesStore s) input in
  (item', handleValueChange (set_filterValuesStore store' s)).

(** ** Sort state (FilterableTable.tsx) *)

(** [props.defaultSort]: [{column: string, direction: "asc" | "desc"}]. *)
Record DefaultSort : Type := {
  default_column : string;
  default_direction : SortDirection;
}.

(** The initial signal: [column: props.defaultSort?.column || null] and
    [direction: props.defaultSort?.direction || null]. *)
Definition initialSortState (defaultSort : option DefaultSort) : SortState :=
  {| sort_column :=
       match defaultSort with
       | Some d => if decide (default_column d = EmptyString) then None
                   else Some (default_column d)
       | None => None
       end;
     direction := default_direction <$> defaultSort |}.

Definition handleSortChange (column : string) (current : SortState) : SortState :=
  if decide (sort_column current = Some column) then
    match direction current with
    | Some asc => {| sort_column := Some column; direction := Some desc |}
    | Some desc => {| sort_column := None; direction := None |}
    | None => {| sort_column := Some column; direction := Some asc |}
    end
  else {| sort_column := Some column; direction := Some asc |}.

(** FilterableTable's [handleReset], the [onReset] of the filter. *)
Definition resetSort : SortState := {| sort_column := None; direction := None |}.

(** ** Filtered and sorted data (FilterableTable.tsx, processedData) *)

(** [props.data.filter(evaluator)] allocates the array of the rows kept, and
    [sortData] is applied to it. The result is the reference handed to
    [props.onFilteredDataChange] and to the table, with the heap afterwards. *)
Definition processedData `{RegExpEngine} `{Collation} `{NumberFormat} `{SortEngine}
    (filterEvaluator : Predicate)
    (st : SortState) (heap : Arrays) (data : positive) : Effect.M (positive * Arrays) :=
  kept ← Effect.filter (runPredicate filterEvaluator) (default [] (heap !! data));
  let filtered := fresh (dom heap) in
  Effect.ret (sortData st (<[filtered := kept]> heap) filtered).

(** ** Column selection (FilterableTable.tsx) *)

Definition allColumnKeys (columns : list ColumnDefinition) : list string :=
  map key columns.

Definition selectAllColumns (columns : list ColumnDefinition) : list string :=
  allColumnKeys columns.

(** [first ? [first] : []]: an empty first key counts as none. *)
Definition selectNoColumns (columns : list ColumnDefinition) : list string :=
  match allColumnKeys columns with
  | first :: _ => if decide (first = EmptyString) then [] else [first]
  | [] => []
  end.

(** ** Column widths and the drag of a resizer *)

(** A column definition with the optional fields the width and resize code
    reads: [width?: string] and [resizable?: boolean]. *)
Record ColumnSettings : Type := {
  definition : ColumnDefinition;
  width : option string;
  resizable : option bool;
}.

(** [Record<string, string>]: column key to CSS width. *)
Abbreviation Widths := (gmap string string).

(** FilterableTable.tsx, [getInitialWidths]. [col.width || defaultWidth]
    takes the default for a missing and for an empty width. With no column
    the default width is never used. *)
Definition getInitialWidths (columns : list ColumnSettings) : Widths :=
  let totalCols := Z.of_nat (length columns) in
  let defaultWidth := pretty (100 `div` totalCols) +:+ "%" in
  foldl
    (λ widths col,
       <[key (definition col) :=
           match width col with
           | Some w => if decide (w = EmptyString) then defaultWidth else w
           | None => defaultWidth
           end]> widths)
    ∅ columns.

(** FilterableTable.tsx, [handleColumnResize]: [{...prev, [columnKey]: width}]. *)
Definition handleColumnResize (columnKey width : string) (prev : Widths) : Widths :=
  <[columnKey := width]> prev.

(** The resize state of the table inside FilterableTable: the mutable
    [resizeData], the signal [resizingColumn], whether the [mousemove] and
    [mouseup] listeners are on the document, and the parent's width map,
    which [props.onColumnResize] writes. *)
Record ResizeState : Type := {
  resizeData : option ResizeData;
  resizingColumn : option string;
  listening : bool;
  columnWidths : Widths;
}.

(** The calls of [props.onColumnResize], in order, applied to the map. *)
Definition publishWidths (calls : list (string * string)) (widths : Widths) : Widths :=
  foldl (λ w call, handleColumnResize call.1 call.2 w) widths calls.

(** [handleResizeStart(colIndex, e)]. [cols] is the value of the memo of the
    visible columns, [clientX] the pointer position, and [headers] the
    [offsetWidth] of each header cell of the row, in order: the cell of the
    resizer is the one at [colIndex] and its next sibling the one after. *)
Definition handleResizeStart (allowResize : option bool) (cols : list ColumnSettings)
    (colIndex : nat) (clientX : Z) (headers : list Z) (s : ResizeState) : ResizeState :=
  match cols !! colIndex, cols !! S colIndex with
  | Some leftCol, Some rightCol =>
      if decide (allowResize = Some false) then s
      else if decide (resizable leftCol = Some false ∨ resizable rightCol = Some false)
      then s
      else
        match headers !! colIndex, headers !! S colIndex with
        | Some thWidth, Some nextThWidth =>
            let locked :=
              publishWidths
                (map (λ cell, (key (definition cell.1), px cell.2)) (zip cols headers))
                (columnWidths s) in
            {| resizeData :=
                 Some {| leftColumn := key (definition leftCol);
                         rightColumn := key (definition rightCol);
                         startX := clientX;
                         leftStartWidth := thWidth;
                         rightStartWidth := nextThWidth;
                         minWidth := 50 |};
               resizingColumn := Some (key (definition leftCol));
               listening := true;
               columnWidths := locked |}
        | _, _ => s
        end
  | _, _ => s
  end.

(** A [mousemove] on the document: [handleResizeMove] runs if it is
    registered, and its calls reach the width map. *)
Definition mouseMove (clientX : Z) (s : ResizeState) : ResizeState :=
  if listening s then
    {| resizeData := resizeData s;
       resizingColumn := resizingColumn s;
       listening := true;
       columnWidths := publishWidths (handleResizeMove (resizeData s) clientX) (columnWidths s) |}
  else s.

Definition handleResizeEnd (s : ResizeState) : ResizeState :=
  {| resizeData := None; resizingColumn := None; listening := false;
     columnWidths := columnWidths s |}.

(** A [mouseup] on the document. *)
Definition mouseUp (s : ResizeState) : ResizeState :=
  if listening s then handleResizeEnd s else s.

(** [canShowResizer(colIndex)]; [None] stands for the [TypeError] of reading
    [resizable] of a missing left column. *)
Definition canShowResizer (allowResize : option bool) (cols : list ColumnSettings)
    (colIndex : nat) : option bool :=
  if decide (allowResize = Some false) then Some false
  else
    match cols !! S colIndex with
    | None => Some false
    | Some rightCol =>
        match cols !! colIndex with
        | None => None
        | Some leftCol =>
            Some (bool_decide (resizable leftCol ≠ Some false)
                  && bool_decide (resizable rightCol ≠ Some false))
        end
    end.

(** * Further properties *)

(** ** The side table *)

(** X1: a value written for an id is the one read back, whatever defaults
    the reader passes, and reading changes nothing. *)
Theorem getFilterValue_after_set (id column regex : string) (caseSensitive : bool)
    (defaultColumn defaultRegex : string) (defaultCaseSensitive : bool) (store : Store) :
  getFilterValue id defaultColumn defaultRegex defaultCaseSensitive
    (setFilterValue id column regex caseSensitive store)
  = ({| value_column := column; value_regex := regex;
        value_caseSensitive := caseSensitive |},
     setFilterValue id column regex caseSensitive store).
Proof.
  unfold getFilterValue, setFilterValue. rewrite lookup_insert_eq. reflexivity.
Qed.

(** X2: the first read of an id fixes its entry: a second read, with any
    other defaults, returns the same values and leaves the store as it is;
    and a read touches no entry but that of its id. *)
Theorem getFilterValue_first_read_wins (id column regex : string) (caseSensitive : bool)
    (column' regex' : string) (caseSensitive' : bool) (store : Store) :
  let first := getFilterValue id column regex caseSensitive store in
  getFilterValue id column' regex' caseSensitive' first.2 = first
  ∧ (∀ other, other ≠ id → first.2 !! other = store !! other)
  ∧ (∀ values, store !! id = Some values → first = (values, store)).
Proof.
  unfold getFilterValue.
  destruct (store !! id) as [values |] eqn:Hid; simpl.
  - rewrite Hid. repeat split. intros values' [= ->]. reflexivity.
  - rewrite lookup_insert_eq. repeat split; [| discriminate].
    intros other Hother. apply lookup_insert_ne. congruence.
Qed.

(** ** Merging the side table into the tree *)

(** The conditions of a tree, left to right. *)
Fixpoint leaves (node : FilterNode) : list FilterCondition :=
  match node with
  | Condition c => [c]
  | Group _ _ children => concat (map leaves children)
  end.

(** The tree without the values of its conditions: ids, operators, shape. *)
Fixpoint skeleton (node : FilterNode) : FilterNode :=
  match node with
  | Condition c =>
      Condition {| cond_id := cond_id c; column := EmptyString;
                   regex := EmptyString; caseSensitive := None |}
  | Group id operator children => Group id operator (map skeleton children)
  end.

(** The values a condition carries. *)
Definition valuesOf (c : FilterCondition) : FilterValue :=
  {| value_column := column c; value_regex := regex c;
     value_caseSensitive := default false (caseSensitive c) |}.

(** What a visit of one condition does to the store. *)
Definition visit (store : Store) (c : FilterCondition) : Store :=
  match store !! cond_id c with
  | Some _ => store
  | None => <[cond_id c := valuesOf c]> store
  end.

Lemma visit_subseteq (store : Store) (c : FilterCondition) : store ⊆ visit store c.
Proof.
  unfold visit. destruct (store !! cond_id c) eqn:Hc; [reflexivity |].
  apply insert_subseteq, Hc.
Qed.

Lemma visits_subseteq (l : list FilterCondition) (store : Store) :
  store ⊆ foldl visit store l.
Proof.
  revert store. induction l as [| c l IH]; intros store; simpl; [reflexivity |].
  etrans; [apply visit_subseteq | apply IH].
Qed.

Lemma map_store_cons {A B} (f : A → Store → B * Store) (x : A) (l : list A) (store : Store) :
  map_store f (x :: l) store =
  ((f x store).1 :: (map_store f l (f x store).2).1, (map_store f l (f x store).2).2).
Proof.
  simpl. destruct (f x store) as [y store1]. simpl.
  destruct (map_store f l store1) as [ys store2]. reflexivity.
Qed.

Lemma buildFilterWithValues_group (id : string) (operator : FilterOperator)
    (children : list FilterNode) (store : Store) :
  buildFilterWithValues (Group id operator children) store =
  (Group id operator (map_store buildFilterWithValues children store).1,
   (map_store buildFilterWithValues children store).2).
Proof.
  simpl. destruct (map_store buildFilterWithValues children store). reflexivity.
Qed.

Lemma buildFilterWithValues_condition (c : FilterCondition) (store : Store) :
  buildFilterWithValues (Condition c) store =
  (Condition
     (let values := default (valuesOf c) (store !! cond_id c) in
      {| cond_id := cond_id c; column := value_column values;
         regex := value_regex values;
         caseSensitive := Some (value_caseSensitive values) |}),
   visit store c).
Proof.
  simpl. unfold getFilterValue, visit.
  destruct (store !! cond_id c); reflexivity.
Qed.

Lemma buildFilterWithValues_store (node : FilterNode) :
  ∀ store, (buildFilterWithValues node store).2 = foldl visit store (leaves node).
Proof.
  induction node as [c | id operator children IH] using FilterNode_nested_ind;
    intros store.
  - rewrite buildFilterWithValues_condition. reflexivity.
  - rewrite buildFilterWithValues_group. simpl. revert store.
    induction IH as [| child children Hchild _ IHchildren]; intros store.
    + reflexivity.
    + rewrite map_store_cons. simpl. rewrite foldl_app, IHchildren, Hchild.
      reflexivity.
Qed.

Lemma buildFilterWithValues_skeleton (node : FilterNode) :
  ∀ store, skeleton (buildFilterWithValues node store).1 = skeleton node.
Proof.
  induction node as [c | id operator children IH] using FilterNode_nested_ind;
    intros store.
  - rewrite buildFilterWithValues_condition. reflexivity.
  - rewrite buildFilterWithValues_group. simpl. f_equal. revert store.
    induction IH as [| child children Hchild _ IHchildren]; intros store.
    + reflexivity.
    + rewrite map_store_cons. simpl. rewrite Hchild, IHchildren. reflexivity.
Qed.

(** A condition as the merge leaves it: the store has its values under its
    id, and its case flag is set. *)
Definition merged (store : Store) (c : FilterCondition) : Prop :=
  store !! cond_id c = Some (valuesOf c) ∧ is_Some (caseSensitive c).

Lemma merged_mono (store store' : Store) (c : FilterCondition) :
  store ⊆ store' → merged store c → merged store' c.
Proof.
  intros Hsub [Hc Hflag]. split; [| exact Hflag].
  eapply lookup_weaken; eassumption.
Qed.

Lemma buildFilterWithValues_merged (node : FilterNode) :
  ∀ store,
    Forall (merged (buildFilterWithValues node store).2)
      (leaves (buildFilterWithValues node store).1).
Proof.
  induction node as [c | id operator children IH] using FilterNode_nested_ind;
    intros store.
  - rewrite buildFilterWithValues_condition. simpl. constructor; [| constructor].
    unfold merged, visit, valuesOf. simpl.
    destruct (store !! cond_id c) as [[vc vr vs] |] eqn:Hc; simpl.
    + split; [exact Hc | eauto].
    + rewrite lookup_insert_eq. split; [reflexivity | eauto].
  - rewrite buildFilterWithValues_group. simpl. revert store.
    induction IH as [| child children Hchild _ IHchildren]; intros store.
    + constructor.
    + rewrite map_store_cons. simpl. apply Forall_app. split; [| apply IHchildren].
      eapply Forall_impl; [apply Hchild |].
      intros c. apply merged_mono.
      pose proof (buildFilterWithValues_store (Group id operator children)
                    (buildFilterWithValues child store).2) as Hstore.
      rewrite buildFilterWithValues_group in Hstore. simpl in Hstore.
      rewrite Hstore. apply visits_subseteq.
Qed.

Lemma buildFilterWithValues_fixed (node : FilterNode) :
  ∀ store, Forall (merged store) (leaves node) →
           buildFilterWithValues node store = (node, store).
Proof.
  induction node as [c | id operator children IH] using FilterNode_nested_ind;
    intros store Hmerged.
  - rewrite buildFilterWithValues_condition.
    apply Forall_singleton in Hmerged as [Hc [flag Hflag]].
    unfold visit. rewrite Hc. simpl. destruct c as [cid ccol cre ccs]. simpl in *.
    subst ccs. reflexivity.
  - rewrite buildFilterWithValues_group. simpl in Hmerged.
    assert (map_store buildFilterWithValues children store = (children, store)) as ->;
      [| reflexivity].
    induction IH as [| child children Hchild _ IHchildren]; [reflexivity |].
    simpl in Hmerged. apply Forall_app in Hmerged as [Hhere Hrest].
    rewrite map_store_cons, Hchild by exact Hhere. simpl.
    rewrite IHchildren by exact Hrest. reflexivity.
Qed.

Lemma skeleton_nodeIds (node : FilterNode) : nodeIds (skeleton node) = nodeIds node.
Proof.
  induction node as [c | id operator children IH] using FilterNode_nested_ind.
  - reflexivity.
  - simpl. f_equal. f_equal. rewrite map_map.
    induction IH as [| child children Hchild _ IHchildren]; simpl; congruence.
Qed.

Lemma skeleton_leaf_ids (node : FilterNode) :
  map cond_id (leaves (skeleton node)) = map cond_id (leaves node).
Proof.
  induction node as [c | id operator children IH] using FilterNode_nested_ind.
  - reflexivity.
  - simpl. rewrite map_map.
    induction IH as [| child children Hchild _ IHchildren]; simpl; [reflexivity |].
    rewrite !map_app. congruence.
Qed.

Lemma leaf_ids (node : FilterNode) : map cond_id (leaves node) = conditionIds node.
Proof.
  induction node as [c | id operator children IH] using FilterNode_nested_ind.
  - reflexivity.
  - simpl. induction IH as [| child children Hchild _ IHchildren]; simpl; [reflexivity |].
    rewrite map_app. congruence.
Qed.

(** X3: merging the side table into a tree changes the values of its
    conditions only: the result has the same shape, the same operators and
    the same ids in the same places. *)
Theorem buildFilterWithValues_keeps_structure (node : FilterNode) (store : Store) :
  skeleton (buildFilterWithValues node store).1 = skeleton node
  ∧ nodeIds (buildFilterWithValues node store).1 = nodeIds node
  ∧ map cond_id (leaves (buildFilterWithValues node store).1) = map cond_id (leaves node).
Proof.
  pose proof (buildFilterWithValues_skeleton node store) as Hskeleton.
  split; [exact Hskeleton |]. split.
  - rewrite <- skeleton_nodeIds, Hskeleton. apply skeleton_nodeIds.
  - rewrite <- skeleton_leaf_ids, Hskeleton. apply skeleton_leaf_ids.
Qed.

Lemma visits_keys (l : list FilterCondition) :
  ∀ (store : Store) (k : string),
    is_Some (foldl visit store l !! k) ↔ is_Some (store !! k) ∨ k ∈ map cond_id l.
Proof.
  induction l as [| c l IH]; intros store k; simpl.
  - split; [tauto | intros [Hk | Hk]; [exact Hk | inversion Hk]].
  - rewrite IH, elem_of_cons. unfold visit.
    destruct (store !! cond_id c) as [v |] eqn:Hc.
    + split; [tauto |]. intros [Hk | [-> | Hk]]; eauto.
    + rewrite lookup_insert. destruct (decide (cond_id c = k)) as [<- | Hne].
      * split; [tauto | eauto].
      * split; [tauto |]. intros [Hk | [-> | Hk]]; tauto.
Qed.

(** X4: merging only adds to the side table: every entry it had is kept as
    it was, afterwards every condition of the tree has an entry, and the
    only new keys are ids of conditions of the tree. *)
Theorem buildFilterWithValues_store_grows (node : FilterNode) (store : Store) :
  store ⊆ (buildFilterWithValues node store).2
  ∧ (∀ id, id ∈ conditionIds node → is_Some ((buildFilterWithValues node store).2 !! id))
  ∧ (∀ id, is_Some ((buildFilterWithValues node store).2 !! id) →
           is_Some (store !! id) ∨ id ∈ conditionIds node).
Proof.
  rewrite buildFilterWithValues_store. split; [apply visits_subseteq |]. split.
  - intros id Hid. apply visits_keys. right. rewrite leaf_ids. exact Hid.
  - intros id Hid. apply visits_keys in Hid. rewrite leaf_ids in Hid. exact Hid.
Qed.

(** X5: merging is idempotent: merging the side table again into the tree
    it gave returns the same tree and leaves the store as it is, so applying
    twice without an edit in between publishes the same tree. *)
Theorem buildFilterWithValues_idempotent (node : FilterNode) (store : Store) :
  buildFilterWithValues (buildFilterWithValues node store).1
    (buildFilterWithValues node store).2
  = buildFilterWithValues node store.
Proof.
  rewrite buildFilterWithValues_fixed by apply buildFilterWithValues_merged.
  destruct (buildFilterWithValues node store); reflexivity.
Qed.

(** X6: the tree that is published agrees with the side table: each of its
    conditions carries the values the store holds under its id afterwards,
    which are the values the store held before whenever it had an entry
    (the values of the tree itself are used only for a missing entry). *)
Theorem buildFilterWithValues_takes_store_values (node : FilterNode) (store : Store)
    (c : FilterCondition) :
  c ∈ leaves (buildFilterWithValues node store).1 →
  (buildFilterWithValues node store).2 !! cond_id c = Some (valuesOf c)
  ∧ (∀ values, store !! cond_id c = Some values →
       column c = value_column values
       ∧ regex c = value_regex values
       ∧ caseSensitive c = Some (value_caseSensitive values)).
Proof.
  intros Hc.
  pose proof (buildFilterWithValues_merged node store) as Hmerged.
  rewrite Forall_forall in Hmerged. destruct (Hmerged c Hc) as [Hentry [flag Hflag]].
  split; [exact Hentry |].
  intros values Hvalues.
  pose proof (visits_subseteq (leaves node) store) as Hsub.
  rewrite <- buildFilterWithValues_store in Hsub.
  pose proof (lookup_weaken _ _ _ _ Hvalues Hsub) as Hkept.
  rewrite Hentry in Hkept. injection Hkept as <-.
  unfold valuesOf. simpl. rewrite Hflag. repeat split.
Qed.

Definition typed_store : Store :=
  <["c1" := {| value_column := "email"; value_regex := "x"; value_caseSensitive := true |}]> ∅.

Definition typed_condition : FilterCondition :=
  {| cond_id := "c1"; column := "email"; regex := "x"; caseSensitive := Some true |}.

Lemma buildFilterWithValues_takes_store_values_witness :
  (buildFilterWithValues (sample_condition "c1") typed_store).2 !! "c1"
  = Some (valuesOf typed_condition)
  ∧ (∀ values, typed_store !! "c1" = Some values →
       column typed_condition = value_column values
       ∧ regex typed_condition = value_regex values
       ∧ caseSensitive typed_condition = Some (value_caseSensitive values)).
Proof.
  apply (buildFilterWithValues_takes_store_values (sample_condition "c1") typed_store
           typed_condition).
  apply list_elem_of_here.
Defined.

(** ** Editing the tree *)

Lemma map_store_app {A B} (f : A → Store → B * Store) (l1 l2 : list A) :
  ∀ store,
    map_store f (l1 ++ l2) store =
    ((map_store f l1 store).1 ++ (map_store f l2 (map_store f l1 store).2).1,
     (map_store f l2 (map_store f l1 store).2).2).
Proof.
  induction l1 as [| x l1 IH]; intros store.
  - simpl. destruct (map_store f l2 store); reflexivity.
  - rewrite <- app_comm_cons, !map_store_cons, IH. reflexivity.
Qed.

Lemma buildFilterWithValues_insert_fresh (node : FilterNode) (k : string) (v : FilterValue) :
  ∀ store,
    k ∉ conditionIds node →
    buildFilterWithValues node (<[k := v]> store) =
    ((buildFilterWithValues node store).1, <[k := v]> (buildFilterWithValues node store).2).
Proof.
  induction node as [c | id operator children IH] using FilterNode_nested_ind;
    intros store Hfresh.
  - rewrite !buildFilterWithValues_condition. simpl in Hfresh.
    assert (k ≠ cond_id c) as Hne.
    { intros ->. apply Hfresh, list_elem_of_here. }
    unfold visit. rewrite lookup_insert_ne by exact Hne.
    destruct (store !! cond_id c); simpl; [reflexivity |].
    rewrite insert_insert_ne by congruence. reflexivity.
  - rewrite !buildFilterWithValues_group. simpl in Hfresh.
    assert (map_store buildFilterWithValues children (<[k := v]> store) =
            ((map_store buildFilterWithValues children store).1,
             <[k := v]> (map_store buildFilterWithValues children store).2)) as ->;
      [| reflexivity].
    revert store.
    induction IH as [| child children Hchild _ IHchildren]; intros store.
    + reflexivity.
    + simpl in Hfresh. rewrite elem_of_app in Hfresh.
      rewrite !map_store_cons, Hchild by tauto. simpl.
      rewrite IHchildren by tauto. reflexivity.
Qed.

Section EditingFacts.
Context `{RegExpEngine} `{NumberFormat}.

Lemma evaluateNode_appended_true (id : string) (operator : FilterOperator)
    (children : list FilterNode) (extra : FilterNode) (row : Row) :
  Effect.outcome (evaluateNode extra row) = Normal true →
  Effect.outcome (evaluateNode (Group id operator (children ++ [extra])) row) =
  match operator with
  | AND => Effect.outcome (evaluateNode (Group id operator children) row)
  | OR => Normal true
  end.
Proof.
  intros Htrue.
  assert (∀ l, Forall (λ child, returns (evaluateNode child row)) l) as Hret.
  { intros l. apply Forall_forall. intros. apply evaluateNode_returns. }
  rewrite !evaluateNode_group.
  destruct (children ++ [extra]) as [| first rest] eqn:Happ.
  { destruct children; discriminate Happ. }
  rewrite <- Happ. clear Happ first rest. destruct operator.
  - rewrite every_outcome by apply Hret.
    assert (Effect.outcome
              match children with
              | [] => Effect.ret true
              | _ :: _ => Effect.every (λ child, evaluateNode child row) children
              end
            = Normal (bool_decide
                        (Forall (λ child, Effect.outcome (evaluateNode child row) = Normal true)
                           children))) as ->.
    { destruct children; [reflexivity | apply every_outcome, Hret]. }
    f_equal. apply bool_decide_ext. rewrite Forall_app, Forall_singleton. tauto.
  - rewrite some_outcome by apply Hret. f_equal. apply bool_decide_eq_true_2.
    apply Exists_app. right. constructor. exact Htrue.
Qed.

(** X7: adding a condition under a fresh id to a group never narrows it: in
    the trees as they are applied (side table merged in), an AND group passes
    exactly the rows it passed before, and an OR group passes every row,
    since the new condition has an empty pattern. *)
Theorem handleAddCondition_evaluation (columns : list ColumnOption) (newId : string)
    (group : FilterGroup) (store : Store) (row : Row) :
  newId ∉ conditionIds (group_node group) →
  let before := (buildFilterWithValues (group_node group) store).1 in
  let added := handleAddCondition columns newId group store in
  let after := (buildFilterWithValues (group_node added.1) added.2).1 in
  children added.1 =
    children group ++
    [Condition {| cond_id := newId; column := firstColumn columns;
                  regex := EmptyString; caseSensitive := Some false |}]
  ∧ Effect.outcome (evaluateNode after row) =
    match operator group with
    | AND => Effect.outcome (evaluateNode before row)
    | OR => Normal true
    end.
Proof.
  intros Hfresh. cbv zeta. split; [reflexivity |].
  unfold handleAddCondition, deepClone, group_node, setFilterValue.
  cbn [fst snd group_id operator children].
  rewrite !buildFilterWithValues_group. cbn [fst snd].
  rewrite map_store_app. cbn [fst snd].
  pose proof (buildFilterWithValues_insert_fresh (group_node group) newId
                {| value_column := firstColumn columns; value_regex := EmptyString;
                   value_caseSensitive := false |} store Hfresh) as Hbuild.
  unfold group_node in Hbuild. rewrite !buildFilterWithValues_group in Hbuild.
  injection Hbuild as Hchildren Hstore. rewrite Hchildren, Hstore.
  rewrite map_store_cons. cbn [fst snd map_store].
  rewrite buildFilterWithValues_condition. cbn [fst snd cond_id].
  rewrite lookup_insert_eq. cbn [default value_column value_regex value_caseSensitive].
  apply evaluateNode_appended_true. reflexivity.
Qed.

(** X8: adding a sub-group under fresh ids never narrows a group either: the
    new sub-group holds one condition with an empty pattern, so an AND group
    passes the rows it passed before and an OR group passes every row. *)
Theorem handleAddGroup_evaluation (columns : list ColumnOption)
    (newConditionId newGroupId : string) (group : FilterGroup) (store : Store) (row : Row) :
  newConditionId ∉ conditionIds (group_node group) →
  let before := (buildFilterWithValues (group_node group) store).1 in
  let added := handleAddGroup columns newConditionId newGroupId group store in
  let after := (buildFilterWithValues (group_node added.1) added.2).1 in
  children added.1 =
    children group ++
    [Group newGroupId AND
       [Condition {| cond_id := newConditionId; column := firstColumn columns;
                     regex := EmptyString; caseSensitive := Some false |}]]
  ∧ Effect.outcome (evaluateNode after row) =
    match operator group with
    | AND => Effect.outcome (evaluateNode before row)
    | OR => Normal true
    end.
Proof.
  intros Hfresh. cbv zeta. split; [reflexivity |].
  unfold handleAddGroup, deepClone, group_node, setFilterValue.
  cbn [fst snd group_id operator children].
  rewrite !buildFilterWithValues_group. cbn [fst snd].
  rewrite map_store_app. cbn [fst snd].
  pose proof (buildFilterWithValues_insert_fresh (group_node group) newConditionId
                {| value_column := firstColumn columns; value_regex := EmptyString;
                   value_caseSensitive := false |} store Hfresh) as Hbuild.
  unfold group_node in Hbuild. rewrite !buildFilterWithValues_group in Hbuild.
  injection Hbuild as Hchildren Hstore. rewrite Hchildren, Hstore.
  rewrite map_store_cons. cbn [fst snd map_store].
  rewrite buildFilterWithValues_group. cbn [fst snd].
  rewrite map_store_cons. cbn [fst snd map_store].
  rewrite buildFilterWithValues_condition. cbn [fst snd cond_id].
  rewrite lookup_insert_eq. cbn [default value_column value_regex value_caseSensitive].
  apply evaluateNode_appended_true. reflexivity.
Qed.

(** X9: switching the operator of a group twice gives the group back, and
    for a group with at most one child the switch does not change which
    rows pass. *)
Theorem handleToggleOperator_small_group (group : FilterGroup) (row : Row) :
  (length (children group) ≤ 1)%nat →
  handleToggleOperator (handleToggleOperator group) = group
  ∧ operator (handleToggleOperator group) ≠ operator group
  ∧ Effect.outcome (evaluateNode (group_node (handleToggleOperator group)) row)
    = Effect.outcome (evaluateNode (group_node group) row).
Proof.
  intros Hsmall. destruct group as [gid op kids]. simpl in Hsmall.
  split; [destruct op; reflexivity |].
  split; [destruct op; discriminate |].
  unfold handleToggleOperator, deepClone, group_node.
  cbn [group_id operator children].
  destruct kids as [| child [| second rest]]; [reflexivity | | simpl in Hsmall; lia].
  rewrite !evaluateNode_group.
  destruct (evaluateNode_returns child row) as [b Hb].
  destruct op; rewrite every_cons, some_cons, !outcome_bind, Hb; destruct b; reflexivity.
Qed.

End EditingFacts.

Definition name_column : list ColumnOption :=
  [{| option_value := "name"; option_label := "Name" |}].

Definition one_condition_group : FilterGroup :=
  {| group_id := "root"; operator := OR; children := [sample_condition "c1"] |}.

Lemma handleAddCondition_evaluation_witness :
  children (handleAddCondition name_column "c9" one_condition_group ∅).1 =
    children one_condition_group ++
    [Condition {| cond_id := "c9"; column := "name";
                  regex := EmptyString; caseSensitive := Some false |}]
  ∧ Effect.outcome
      (evaluateNode
         (buildFilterWithValues
            (group_node (handleAddCondition name_column "c9" one_condition_group ∅).1)
            (handleAddCondition name_column "c9" one_condition_group ∅).2).1 bob)
    = Normal true.
Proof.
  apply (handleAddCondition_evaluation name_column "c9" one_condition_group ∅ bob).
  simpl. intros Hin. apply list_elem_of_singleton in Hin. discriminate Hin.
Defined.

Lemma handleAddGroup_evaluation_witness :
  children (handleAddGroup name_column "c9" "g9" one_condition_group ∅).1 =
    children one_condition_group ++
    [Group "g9" AND
       [Condition {| cond_id := "c9"; column := "name";
                     regex := EmptyString; caseSensitive := Some false |}]]
  ∧ Effect.outcome
      (evaluateNode
         (buildFilterWithValues
            (group_node (handleAddGroup name_column "c9" "g9" one_condition_group ∅).1)
            (handleAddGroup name_column "c9" "g9" one_condition_group ∅).2).1 bob)
    = Normal true.
Proof.
  apply (handleAddGroup_evaluation name_column "c9" "g9" one_condition_group ∅ bob).
  simpl. intros Hin. apply list_elem_of_singleton in Hin. discriminate Hin.
Defined.

Lemma handleToggleOperator_small_group_witness :
  handleToggleOperator (handleToggleOperator one_condition_group) = one_condition_group
  ∧ operator (handleToggleOperator one_condition_group) ≠ operator one_condition_group
  ∧ Effect.outcome
      (evaluateNode (group_node (handleToggleOperator one_condition_group)) bob)
    = Effect.outcome (evaluateNode (group_node one_condition_group) bob).
Proof.
  apply (handleToggleOperator_small_group one_condition_group bob). simpl. lia.
Defined.

(** ** A condition row and the side table *)

(** X10: the side table follows the row: after the row is mounted and after
    any inputs to its select, text field and checkbox, the entry under the
    condition's id holds exactly the row's three current values, and no other
    entry of the store has changed. *)
Theorem conditionItem_store_in_sync (condition : FilterCondition)
    (columns : list ColumnOption) (store : Store) (inputs : list ItemInput) :
  let final := foldl itemReact (mountConditionItem condition columns store) inputs in
  final.2 !! cond_id condition =
    Some {| value_column := localColumn final.1; value_regex := localRegex final.1;
            value_caseSensitive := localCaseSensitive final.1 |}
  ∧ item_condition final.1 = condition
  ∧ (∀ other, other ≠ cond_id condition → final.2 !! other = store !! other).
Proof.
  cbv zeta. induction inputs as [| input inputs IH] using rev_ind.
  - simpl. unfold mountConditionItem, getFilterValue.
    destruct (store !! cond_id condition) as [[vc vr vs] |] eqn:Hentry; simpl.
    + repeat split. exact Hentry.
    + rewrite lookup_insert_eq. repeat split.
      intros other Hother. apply lookup_insert_ne. congruence.
  - rewrite foldl_app. simpl.
    destruct (foldl itemReact (mountConditionItem condition columns store) inputs)
      as [item store'].
    simpl in IH. destruct IH as (Hentry & Hcondition & Hothers).
    destruct input; simpl; unfold setFilterValue; rewrite Hcondition, lookup_insert_eq;
      (split; [reflexivity |]); (split; [reflexivity |]);
      intros other Hother; (rewrite lookup_insert_ne by congruence); apply Hothers, Hother.
Qed.

(** ** The debounce protocol, further *)

(** The handle a variable holds was handed out before the next one. *)
Definition handles_fresh (s : AdvancedFilter) : Prop :=
  ∀ timer, debouncedTimerRef s = Some timer → (timer < nextTimer s)%positive.

Lemma applyFilter_handles (s : AdvancedFilter) :
  nextTimer (applyFilter s) = nextTimer s.
Proof.
  unfold applyFilter.
  destruct (buildFilterWithValues (group_node (filterRoot s)) (filterValuesStore s)).
  reflexivity.
Qed.

Lemma cancelDebounce_nextTimer (s : AdvancedFilter) :
  nextTimer (cancelDebounce s) = nextTimer s.
Proof. unfold cancelDebounce. destruct (debouncedTimerRef s); reflexivity. Qed.

Lemma triggerDebouncedApply_fresh (s : AdvancedFilter) :
  handles_fresh (triggerDebouncedApply s).
Proof.
  unfold triggerDebouncedApply, handles_fresh.
  destruct (isAutoApply (cancelDebounce s)) eqn:Hauto; simpl.
  - intros timer [= <-]. lia.
  - unfold cancelDebounce. destruct (debouncedTimerRef s) eqn:Href; simpl.
    + discriminate.
    + rewrite Href. discriminate.
Qed.

Lemma react_fresh (s : AdvancedFilter) (signal : Signal) :
  handles_fresh s → handles_fresh (react s signal).
Proof.
  intros Hfresh. destruct signal; simpl.
  - apply triggerDebouncedApply_fresh.
  - apply triggerDebouncedApply_fresh.
  - unfold handleEnterKey. destruct (isAutoApply s); simpl; [exact Hfresh |].
    intros timer. destruct (applyFilter_timers (cancelDebounce s)) as (_ & Href & _).
    rewrite Href. unfold cancelDebounce.
    destruct (debouncedTimerRef s) eqn:Hs; simpl; [discriminate |].
    rewrite Hs. discriminate.
  - exact Hfresh.
  - exact Hfresh.
  - unfold timerFires. destruct (decide (timer ∈ armedTimers s)); [| exact Hfresh].
    intros t. destruct (applyFilter_timers (clearTimeout timer s)) as (_ & Href & _).
    rewrite Href, applyFilter_handles. simpl. apply Hfresh.
  - unfold onCleanup. destruct (debouncedTimerRef s) eqn:Hs; [| exact Hfresh].
    intros t. simpl. rewrite Hs. intros [= <-]. apply Hfresh, Hs.
  - exact Hfresh.
Qed.

Lemma reachable_fresh (s : AdvancedFilter) : reachable s → handles_fresh s.
Proof.
  induction 1 as [| s signal _ IH].
  - intros timer. simpl. discriminate.
  - apply react_fresh, IH.
Qed.

(** X11: in every state the component can reach, at most one timer is armed;
    it is the one [debouncedTimerRef] holds, and its handle is older than the
    next handle the host gives out, so a new timer is never mistaken for
    it. *)
Theorem at_most_one_timer_armed (s : AdvancedFilter) :
  reachable s →
  (size (armedTimers s) ≤ 1)%nat
  ∧ (∀ timer, timer ∈ armedTimers s →
       debouncedTimerRef s = Some timer ∧ (timer < nextTimer s)%positive).
Proof.
  intros Hreach.
  pose proof (reachable_tracked s Hreach) as Htracked.
  pose proof (reachable_fresh s Hreach) as Hfresh.
  split.
  - destruct (debouncedTimerRef s) as [timer |] eqn:Href.
    + assert (armedTimers s ⊆ {[timer]}) as Hsub.
      { intros t Ht. apply Htracked in Ht. apply elem_of_singleton. congruence. }
      apply subseteq_size in Hsub. rewrite size_singleton in Hsub. exact Hsub.
    + assert (armedTimers s = ∅) as ->.
      { apply set_eq. intros t. split; [| set_solver].
        intros Ht. apply Htracked in Ht. congruence. }
      rewrite size_empty. lia.
  - intros timer Ht. apply Htracked in Ht. split; [exact Ht | apply Hfresh, Ht].
Qed.

Lemma at_most_one_timer_armed_witness :
  (size (armedTimers edited_on_auto) ≤ 1)%nat
  ∧ (∀ timer, timer ∈ armedTimers edited_on_auto →
       debouncedTimerRef edited_on_auto = Some timer
       ∧ (timer < nextTimer edited_on_auto)%positive).
Proof.
  apply (at_most_one_timer_armed edited_on_auto). repeat constructor.
Defined.

(** An edit: a change of the tree or an input to a condition row. *)
Definition is_edit (signal : Signal) : Prop :=
  match signal with
  | StructureChange _ | InputEdit _ _ _ _ => True
  | _ => False
  end.

#[global] Instance is_edit_dec (signal : Signal) : Decision (is_edit signal).
Proof. destruct signal; simpl; apply _. Defined.

Definition is_store_write (signal : Signal) : Prop :=
  match signal with
  | StoreWritten _ => True
  | _ => False
  end.

(** What a user's editing consists of: edits, and the writes to the side
    table that the group builders and the rows make around them (a removal
    deletes entries and then changes the tree; an addition writes an entry
    and then changes the tree; the rows of the new tree mount). *)
Definition is_editing (signal : Signal) : Prop :=
  is_edit signal ∨ is_store_write signal.

Lemma triggerDebouncedApply_spec (s : AdvancedFilter) :
  timers_tracked s →
  isAutoApply (triggerDebouncedApply s) = isAutoApply s
  ∧ onFilterChange (triggerDebouncedApply s) = onFilterChange s
  ∧ filterRoot (triggerDebouncedApply s) = filterRoot s
  ∧ filterValuesStore (triggerDebouncedApply s) = filterValuesStore s
  ∧ armedTimers (triggerDebouncedApply s) =
    (if isAutoApply s then {[nextTimer s]} else ∅)
  ∧ debouncedTimerRef (triggerDebouncedApply s) =
    (if isAutoApply s then Some (nextTimer s) else None).
Proof.
  intros Htracked. unfold triggerDebouncedApply.
  destruct (cancelDebounce_clears s Htracked)
    as (Harmed & Href & Hauto & Hroot & Hstore & Hpub).
  rewrite Hauto. destruct (isAutoApply s); simpl.
  - rewrite Hauto, Hpub, Hroot, Hstore, Harmed, cancelDebounce_nextTimer.
    repeat split. apply set_eq. intros t. rewrite elem_of_union, elem_of_empty. tauto.
  - rewrite Hauto, Hpub, Hroot, Hstore, Harmed, Href. repeat split.
Qed.

Lemma edit_spec (s : AdvancedFilter) (signal : Signal) :
  timers_tracked s → is_edit signal →
  isAutoApply (react s signal) = isAutoApply s
  ∧ onFilterChange (react s signal) = onFilterChange s
  ∧ armedTimers (react s signal) = (if isAutoApply s then {[nextTimer s]} else ∅)
  ∧ debouncedTimerRef (react s signal) =
    (if isAutoApply s then Some (nextTimer s) else None)
  ∧ timers_tracked (react s signal).
Proof.
  intros Htracked Hedit.
  split; [| split; [| split; [| split]]]; try (apply react_tracked, Htracked);
    destruct signal; try contradiction; simpl;
    unfold handleStructureChange, inputEdit, handleValueChange;
    match goal with
    | |- context [triggerDebouncedApply ?s'] =>
        assert (timers_tracked s') as Htracked' by exact Htracked;
        destruct (triggerDebouncedApply_spec s' Htracked')
          as (Hauto & Hpub & _ & _ & Harmed & Href)
    end; assumption.
Qed.

(** A run of editing publishes nothing and leaves the mode as it was; if it
    holds an edit, the timers afterwards are those of its last edit, and if
    it holds none they are untouched. *)
Lemma editing_spec (run : list Signal) :
  ∀ s, timers_tracked s → Forall is_editing run →
       isAutoApply (foldl react s run) = isAutoApply s
       ∧ onFilterChange (foldl react s run) = onFilterChange s
       ∧ timers_tracked (foldl react s run)
       ∧ (Exists is_edit run →
          if isAutoApply s
          then ∃ timer, armedTimers (foldl react s run) = {[timer]}
                        ∧ debouncedTimerRef (foldl react s run) = Some timer
          else armedTimers (foldl react s run) = ∅
               ∧ debouncedTimerRef (foldl react s run) = None)
       ∧ (¬ Exists is_edit run →
          armedTimers (foldl react s run) = armedTimers s
          ∧ debouncedTimerRef (foldl react s run) = debouncedTimerRef s).
Proof.
  induction run as [| signal run IH]; intros s Htracked Hrun.
  - simpl. split; [reflexivity |]. split; [reflexivity |]. split; [exact Htracked |].
    split; [intros Hnone; inversion Hnone | intros _; split; reflexivity].
  - apply Forall_cons in Hrun as [Hsignal Hrun].
    pose proof (react_tracked s signal Htracked) as Htracked1.
    destruct (IH (react s signal) Htracked1 Hrun)
      as (Hauto' & Hpub' & Htracked' & Hedited & Hquiet).
    simpl. destruct (decide (is_edit signal)) as [Hedit | Hwrite].
    + destruct (edit_spec s signal Htracked Hedit) as (Hauto & Hpub & Harmed & Href & _).
      rewrite Hauto in Hauto', Hedited. rewrite Hpub in Hpub'.
      split; [exact Hauto' |]. split; [exact Hpub' |]. split; [exact Htracked' |].
      split.
      * intros _. destruct (decide (Exists is_edit run)) as [Hlater | Hlast];
          [exact (Hedited Hlater) |].
        destruct (Hquiet Hlast) as [Harmed' Href'].
        rewrite Harmed', Href', Harmed, Href. destruct (isAutoApply s); eauto.
      * intros Hnone. exfalso. apply Hnone. left. exact Hedit.
    + destruct Hsignal as [Hedit | Hstore]; [contradiction |].
      destruct signal; try contradiction. simpl in *.
      split; [exact Hauto' |]. split; [exact Hpub' |]. split; [exact Htracked' |].
      split.
      * intros Hsome. apply Exists_cons in Hsome as [Hedit | Hlater];
          [contradiction | exact (Hedited Hlater)].
      * intros Hnone. apply Hquiet. intros Hlater. apply Hnone. right. exact Hlater.
Qed.

(** X12: edits are coalesced: with auto-apply on, after any run of editing
    that holds at least one edit (changes of the tree and inputs to rows,
    with the writes to the side table that additions, removals and mounting
    rows make) nothing has been published yet and exactly one timer is
    armed; when it fires, exactly one predicate is published, compiled from
    the tree and the side table as the run left them, and no timer is left
    armed. *)
Theorem edits_are_debounced (s : AdvancedFilter) (run : list Signal) :
  reachable s → isAutoApply s = true → Forall is_editing run → Exists is_edit run →
  let s' := foldl react s run in
  onFilterChange s' = onFilterChange s
  ∧ ∃ timer,
      armedTimers s' = {[timer]}
      ∧ onFilterChange (react s' (TimerFires timer)) =
        onFilterChange s ++
        [Evaluator (buildFilterWithValues (group_node (filterRoot s'))
                      (filterValuesStore s')).1]
      ∧ armedTimers (react s' (TimerFires timer)) = ∅.
Proof.
  intros Hreach Hauto Hrun Hsome. cbv zeta.
  destruct (editing_spec run s (reachable_tracked s Hreach) Hrun)
    as (_ & Hpub & Htracked & Hfinal & _).
  specialize (Hfinal Hsome).
  rewrite Hauto in Hfinal. destruct Hfinal as (timer & Harmed & Href).
  split; [exact Hpub |]. exists timer. split; [exact Harmed |].
  simpl. unfold timerFires.
  rewrite decide_True by (rewrite Harmed; apply elem_of_singleton; reflexivity).
  destruct (applyFilter_timers (clearTimeout timer (foldl react s run)))
    as (Harmed' & _ & _ & _ & Hpub').
  rewrite Hpub', Harmed'. simpl. rewrite Hpub, Harmed.
  split; [reflexivity |].
  apply set_eq. intros t. rewrite elem_of_difference, elem_of_empty. tauto.
Qed.

(** The user types into the row [c1], then removes it: the group builder
    deletes its entry and hands on the root without it; then a condition
    [c2] is added, and its row mounts. *)
Definition type_remove_add : list Signal :=
  [InputEdit "c1" "name" "a" false;
   StoreWritten (SubtreeRemoved (sample_condition "c1"));
   StructureChange {| group_id := "root"; operator := AND; children := [] |};
   StoreWritten (ValueSet "c2" "name" EmptyString false);
   StructureChange {| group_id := "root"; operator := AND;
                      children := [sample_condition "c2"] |};
   StoreWritten (ValueRead "c2" "name" EmptyString false)].

Lemma type_remove_add_editing :
  Forall is_editing type_remove_add ∧ Exists is_edit type_remove_add.
Proof.
  split.
  - repeat (apply Forall_cons; split; [first [left; exact I | right; exact I] |]).
    constructor.
  - left. exact I.
Qed.

Lemma edits_are_debounced_witness :
  let s := mount "root" "c1" None ∅ in
  let s' := foldl react s type_remove_add in
  onFilterChange s' = onFilterChange s
  ∧ ∃ timer,
      armedTimers s' = {[timer]}
      ∧ onFilterChange (react s' (TimerFires timer)) =
        onFilterChange s ++
        [Evaluator (buildFilterWithValues (group_node (filterRoot s'))
                      (filterValuesStore s')).1]
      ∧ armedTimers (react s' (TimerFires timer)) = ∅.
Proof.
  apply (edits_are_debounced (mount "root" "c1" None ∅) type_remove_add).
  - constructor.
  - reflexivity.
  - apply type_remove_add_editing.
  - apply type_remove_add_editing.
Defined.

(** X13: with auto-apply off, editing neither publishes nor arms a timer:
    after any run of editing that holds at least one edit nothing has been
    published, and a timer that was still armed (from before auto-apply was
    switched off) is cancelled. *)
Theorem edits_wait_for_enter_when_manual (s : AdvancedFilter) (run : list Signal) :
  reachable s → isAutoApply s = false → Forall is_editing run → Exists is_edit run →
  let s' := foldl react s run in
  onFilterChange s' = onFilterChange s
  ∧ armedTimers s' = ∅
  ∧ (∀ timer, react s' (TimerFires timer) = s').
Proof.
  intros Hreach Hmanual Hrun Hsome. cbv zeta.
  destruct (editing_spec run s (reachable_tracked s Hreach) Hrun)
    as (_ & Hpub & _ & Hfinal & _).
  specialize (Hfinal Hsome).
  rewrite Hmanual in Hfinal. destruct Hfinal as (Harmed & _).
  split; [exact Hpub |]. split; [exact Harmed |].
  intros timer. simpl. unfold timerFires.
  rewrite decide_False; [reflexivity |]. rewrite Harmed. apply not_elem_of_empty.
Qed.

Lemma edits_wait_for_enter_when_manual_witness :
  armedTimers edited_then_manual = {[ 1%positive ]}
  ∧ onFilterChange (foldl react edited_then_manual type_remove_add)
    = onFilterChange edited_then_manual
  ∧ armedTimers (foldl react edited_then_manual type_remove_add) = ∅
  ∧ (∀ timer, react (foldl react edited_then_manual type_remove_add) (TimerFires timer)
              = foldl react edited_then_manual type_remove_add).
Proof.
  split; [reflexivity |].
  apply (edits_wait_for_enter_when_manual edited_then_manual type_remove_add).
  - repeat constructor.
  - reflexivity.
  - apply type_remove_add_editing.
  - apply type_remove_add_editing.
Defined.

Lemma built_leaf_has_store_values (node : FilterNode) (store : Store)
    (c : FilterCondition) (values : FilterValue) :
  c ∈ leaves (buildFilterWithValues node store).1 →
  store !! cond_id c = Some values →
  column c = value_column values
  ∧ regex c = value_regex values
  ∧ caseSensitive c = Some (value_caseSensitive values).
Proof.
  intros Hc Hvalues.
  pose proof (buildFilterWithValues_merged node store) as Hmerged.
  rewrite Forall_forall in Hmerged. destruct (Hmerged c Hc) as [Hentry [flag Hflag]].
  pose proof (visits_subseteq (leaves node) store) as Hsub.
  rewrite <- buildFilterWithValues_store in Hsub.
  pose proof (lookup_weaken _ _ _ _ Hvalues Hsub) as Hkept.
  rewrite Hentry in Hkept. injection Hkept as <-.
  unfold valuesOf. simpl. rewrite Hflag. repeat split.
Qed.

(** What a handler of a row does to the component is the input edit of the
    values the row shows afterwards. *)
Lemma rowInput_signal (input : ItemInput) (item : ConditionItem) (s : AdvancedFilter) :
  (rowInput input item s).2 =
  react s (InputEdit (cond_id (item_condition item))
             (localColumn (rowInput input item s).1)
             (localRegex (rowInput input item s).1)
             (localCaseSensitive (rowInput input item s).1)).
Proof. destruct input; reflexivity. Qed.

(** X14: what is typed is what is applied: with auto-apply off, after a
    handler of a condition row has run (a column chosen, a pattern typed or
    the case box ticked) and the Enter key has been pressed, exactly one
    predicate has been published; its tree has the shape and ids of the
    current tree, and every condition of it under the row's id carries the
    column, pattern and case flag the row shows, the changed one being the
    value that was entered. *)
Theorem typed_values_are_applied (s : AdvancedFilter) (item : ConditionItem)
    (input : ItemInput) :
  reachable s → isAutoApply s = false →
  let shown := (rowInput input item s).1 in
  let s' := handleEnterKey (rowInput input item s).2 in
  (match input with
   | ColumnChange value =>
       localColumn shown = value ∧ localRegex shown = localRegex item
       ∧ localCaseSensitive shown = localCaseSensitive item
   | RegexInput value =>
       localColumn shown = localColumn item ∧ localRegex shown = value
       ∧ localCaseSensitive shown = localCaseSensitive item
   | CaseSensitiveChange checked =>
       localColumn shown = localColumn item ∧ localRegex shown = localRegex item
       ∧ localCaseSensitive shown = checked
   end)
  ∧ ∃ tree,
      onFilterChange s' = onFilterChange s ++ [Evaluator tree]
      ∧ skeleton tree = skeleton (group_node (filterRoot s))
      ∧ (∀ c, c ∈ leaves tree → cond_id c = cond_id (item_condition item) →
              column c = localColumn shown
              ∧ regex c = localRegex shown
              ∧ caseSensitive c = Some (localCaseSensitive shown)).
Proof.
  intros Hreach Hmanual. cbv zeta.
  split; [destruct input; repeat split |].
  rewrite rowInput_signal.
  set (shown := (rowInput input item s).1).
  set (id := cond_id (item_condition item)).
  pose proof (reachable_tracked s Hreach) as Htracked.
  set (written :=
         set_filterValuesStore
           (setFilterValue id (localColumn shown) (localRegex shown)
              (localCaseSensitive shown) (filterValuesStore s)) s).
  assert (timers_tracked written) as Hwritten by exact Htracked.
  destruct (triggerDebouncedApply_spec written Hwritten)
    as (Hauto & Hpub & Hroot & Hstore & _).
  pose proof (triggerDebouncedApply_tracked written Hwritten) as Htracked1.
  change (react s (InputEdit id (localColumn shown) (localRegex shown)
                     (localCaseSensitive shown)))
    with (triggerDebouncedApply written).
  set (s1 := triggerDebouncedApply written) in *.
  simpl in Hauto, Hpub, Hroot, Hstore.
  unfold handleEnterKey. rewrite Hauto, Hmanual. simpl.
  destruct (cancelDebounce_clears s1 Htracked1) as (_ & _ & _ & Hroot' & Hstore' & Hpub').
  destruct (applyFilter_timers (cancelDebounce s1)) as (_ & _ & _ & _ & Hpublished).
  rewrite Hpublished, Hroot', Hstore', Hpub', Hroot, Hstore, Hpub.
  eexists. split; [reflexivity |]. split; [apply buildFilterWithValues_skeleton |].
  intros c Hc Hid.
  eapply (built_leaf_has_store_values _ _ c
            {| value_column := localColumn shown; value_regex := localRegex shown;
               value_caseSensitive := localCaseSensitive shown |}) in Hc; [exact Hc |].
  rewrite Hid. unfold setFilterValue. apply lookup_insert_eq.
Qed.

Definition mounted_manual : AdvancedFilter := mount "root" "c1" (Some false) ∅.

(** The row of the condition [c1] as it shows the column [name], an empty
    pattern and an unticked case box. *)
Definition name_row : ConditionItem :=
  {| item_condition := {| cond_id := "c1"; column := EmptyString; regex := EmptyString;
                          caseSensitive := Some false |};
     localColumn := "name"; localRegex := EmptyString; localCaseSensitive := false |}.

Lemma typed_values_are_applied_witness :
  ∃ tree,
    onFilterChange (handleEnterKey (rowInput (RegexInput "a") name_row mounted_manual).2)
    = onFilterChange mounted_manual ++ [Evaluator tree]
    ∧ skeleton tree = skeleton (group_node (filterRoot mounted_manual))
    ∧ (∀ c, c ∈ leaves tree → cond_id c = "c1" →
            column c = "name" ∧ regex c = "a" ∧ caseSensitive c = Some false).
Proof.
  apply (typed_values_are_applied mounted_manual name_row (RegexInput "a")).
  - constructor.
  - reflexivity.
Defined.

(** The same run evaluated: the pattern typed into the row is in the tree
    that is published. *)
Example typed_then_enter :
  onFilterChange (handleEnterKey (rowInput (RegexInput "a") name_row mounted_manual).2)
  = [Evaluator edited_tree].
Proof. vm_compute. reflexivity. Qed.

(** ** The sort state *)

(** A column is set exactly when a direction is. *)
Definition sort_state_coherent (st : SortState) : Prop :=
  sort_column st = None ↔ direction st = None.

(** X15: the click cycle: clicking the header of a column that is not the
    sorted one sorts by it ascending, whatever was sorted before; a second
    click sorts descending; a third returns to the unsorted state. *)
Theorem handleSortChange_cycle (clicked : string) (current : SortState) :
  sort_column current ≠ Some clicked →
  handleSortChange clicked current
    = {| sort_column := Some clicked; direction := Some asc |}
  ∧ handleSortChange clicked (handleSortChange clicked current)
    = {| sort_column := Some clicked; direction := Some desc |}
  ∧ handleSortChange clicked
      (handleSortChange clicked (handleSortChange clicked current))
    = resetSort.
Proof.
  intros Hother.
  assert (handleSortChange clicked current
          = {| sort_column := Some clicked; direction := Some asc |}) as ->.
  { unfold handleSortChange. rewrite decide_False by exact Hother. reflexivity. }
  split; [reflexivity |].
  assert (handleSortChange clicked {| sort_column := Some clicked; direction := Some asc |}
          = {| sort_column := Some clicked; direction := Some desc |}) as ->.
  { unfold handleSortChange. simpl. rewrite decide_True by reflexivity. reflexivity. }
  split; [reflexivity |].
  unfold handleSortChange. simpl. rewrite decide_True by reflexivity. reflexivity.
Qed.

Lemma handleSortChange_cycle_witness :
  handleSortChange "n" (handleSortChange "m" (by_n desc))
    = {| sort_column := Some "n"; direction := Some asc |}
  ∧ handleSortChange "n" (handleSortChange "n" (handleSortChange "m" (by_n desc)))
    = {| sort_column := Some "n"; direction := Some desc |}
  ∧ handleSortChange "n"
      (handleSortChange "n" (handleSortChange "n" (handleSortChange "m" (by_n desc))))
    = resetSort.
Proof.
  apply (handleSortChange_cycle "n" (handleSortChange "m" (by_n desc))).
  discriminate.
Defined.

(** X16: a click always leaves a coherent sort state (a column exactly when
    a direction), even from an incoherent one, and so does a reset; the
    initial state is coherent exactly when no default sort is given or its
    column is not the empty string. *)
Theorem sort_state_stays_coherent :
  (∀ clicked current, sort_state_coherent (handleSortChange clicked current))
  ∧ sort_state_coherent resetSort
  ∧ (∀ defaultSort,
       sort_state_coherent (initialSortState defaultSort)
       ↔ ∀ d, defaultSort = Some d → default_column d ≠ EmptyString).
Proof.
  split; [| split].
  - intros clicked current. unfold handleSortChange, sort_state_coherent.
    destruct (decide (sort_column current = Some clicked)); [| simpl; split; discriminate].
    destruct (direction current) as [[] |]; simpl; split; (discriminate || reflexivity).
  - split; reflexivity.
  - intros [d |]; unfold initialSortState, sort_state_coherent; simpl.
    + destruct (decide (default_column d = EmptyString)) as [Hempty | Hnamed].
      * split.
        -- intros [Hdir _]. discriminate (Hdir eq_refl).
        -- intros Hd. exfalso. exact (Hd d eq_refl Hempty).
      * split.
        -- intros _ d' [= <-]. exact Hnamed.
        -- intros _. split; discriminate.
    + split; [intros _ d; discriminate | split; reflexivity].
Qed.

(** ** Stability of the sort *)

Lemma filter_all {A} (P : A → Prop) `{∀ x, Decision (P x)} (l : list A) :
  Forall P l → filter P l = l.
Proof.
  induction 1 as [| x l Hx _ IH]; [reflexivity |].
  rewrite filter_cons_True by exact Hx. rewrite IH. reflexivity.
Qed.

Lemma filter_none {A} (P : A → Prop) `{∀ x, Decision (P x)} (l : list A) :
  Forall (λ x, ¬ P x) l → filter P l = [].
Proof.
  induction 1 as [| x l Hx _ IH]; [reflexivity |].
  rewrite filter_cons_False by exact Hx. exact IH.
Qed.

(** Filtering by a class, then by a part of it, is filtering by the part. *)
Lemma filter_within {A} (P Q : A → Prop) `{∀ x, Decision (P x)} `{∀ x, Decision (Q x)}
    (l : list A) :
  (∀ x, P x → Q x) → filter P (filter Q l) = filter P l.
Proof.
  intros Hpart. induction l as [| x l IH]; [reflexivity |].
  rewrite (filter_cons Q), (filter_cons P x l).
  destruct (decide (Q x)) as [Hq | Hq].
  - rewrite filter_cons, IH. reflexivity.
  - rewrite IH. destruct (decide (P x)) as [Hp | Hp]; [| reflexivity].
    exfalso. apply Hq, Hpart, Hp.
Qed.

Lemma compareRows_same_value `{Collation} `{NumberFormat} (column : string)
    (direction : SortDirection) (a b : Row) :
  getRawValue a column = getRawValue b column →
  compareRows column direction a b = 0.
Proof.
  intros Hsame. unfold compareRows. rewrite Hsame.
  assert (∀ text, localeCompare text text = 0) as Hrefl.
  { intros text. pose proof (localeCompare_swap text text) as Hswap.
    apply Z.sgn_null_iff. lia. }
  destruct (getRawValue b column) as [| | flag | n | text], direction;
    rewrite ?Hrefl; try reflexivity; try lia.
  - rewrite decide_True by reflexivity. reflexivity.
  - rewrite decide_True by reflexivity. reflexivity.
Qed.

(** X17: where the comparator is consistent on the rows, as it is on a
    column that holds numbers only, the sort is stable: the rows that hold
    the same value in the sort column stand in the result in the order they
    had in the input, in either direction. *)
Theorem sortData_is_stable `{Collation} `{NumberFormat} `{SortEngine}
    (column : string) (direction : SortDirection)
    (heap : Arrays) (data : positive) (rows : list Row) (value : Value) :
  column ≠ EmptyString →
  heap !! data = Some rows →
  consistent (compareRows column direction) rows →
  ∃ copy sorted,
    sortData {| sort_column := Some column; direction := Some direction |} heap data
    = (copy, <[copy := sorted]> heap)
    ∧ filter (λ row, getRawValue row column = value) sorted
      = filter (λ row, getRawValue row column = value) rows.
Proof.
  intros Hnamed Hdata Hconsistent. unfold sortData. simpl.
  rewrite decide_False by exact Hnamed.
  eexists _, _. rewrite Hdata. simpl. rewrite alter_insert_eq.
  split; [reflexivity |].
  set (sorted := Array_sort (compareRows column direction) rows).
  destruct (decide (Exists (λ row, getRawValue row column = value) rows)) as [Hsome | Hnone].
  - apply Exists_exists in Hsome as (a & Ha & Hvalue).
    assert (∀ row, getRawValue row column = value →
                   compareRows column direction a row = 0) as Htied.
    { intros row Hrow. apply compareRows_same_value. congruence. }
    rewrite <- (filter_within _ (λ row, compareRows column direction a row = 0) sorted)
      by exact Htied.
    unfold sorted. rewrite (Array_sort_stable _ _ rows a Hconsistent Ha).
    apply filter_within, Htied.
  - assert (Forall (λ row, ¬ getRawValue row column = value) rows) as Hrows.
    { apply Forall_forall. intros row Hrow Hvalue. apply Hnone, Exists_exists. eauto. }
    rewrite (filter_none _ rows) by exact Hrows.
    apply filter_none. unfold sorted.
    rewrite (Array_sort_permutes _ (compareRows column direction) rows). exact Hrows.
Qed.

Definition tagged (n : Z) (tag : string) : Row :=
  {[ "n" := VNum n; "tag" := VStr tag ]}.

Definition tied_heap : Arrays :=
  {[ 1%positive := [tagged 2 "first"; tagged 1 "x"; tagged 2 "second"] ]}.

Lemma sortData_is_stable_witness :
  ∃ copy sorted,
    sortData {| sort_column := Some "n"; direction := Some desc |} tied_heap 1
    = (copy, <[copy := sorted]> tied_heap)
    ∧ filter (λ row, getRawValue row "n" = VNum 2) sorted
      = filter (λ row, getRawValue row "n" = VNum 2)
          [tagged 2 "first"; tagged 1 "x"; tagged 2 "second"].
Proof.
  apply (sortData_is_stable "n" desc tied_heap 1
           [tagged 2 "first"; tagged 1 "x"; tagged 2 "second"] (VNum 2)).
  - discriminate.
  - reflexivity.
  - apply numbers_only_consistent. intros row Hrow.
    repeat (apply elem_of_cons in Hrow as [-> | Hrow]);
      [eexists; reflexivity .. | inversion Hrow].
Defined.

(** The same rows through the insertion engine: 2 (first), 2 (second), 1. *)
Example sort_tied_descending :
  sortData {| sort_column := Some "n"; direction := Some desc |} tied_heap 1
  = (2%positive,
     <[2%positive := [tagged 2 "first"; tagged 2 "second"; tagged 1 "x"]]> tied_heap).
Proof. vm_compute. reflexivity. Qed.

(** ** Filtered and sorted data *)

Lemma runPredicate_returns `{RegExpEngine} `{NumberFormat} (p : Predicate) (row : Row) :
  returns (runPredicate p row).
Proof.
  destruct p as [root |]; simpl.
  - apply evaluateNode_returns.
  - exists true. reflexivity.
Qed.

(** X18: the rows the table shows are the rows of the input that pass the
    published predicate, each as often as it occurs, in a new array; the
    input array is left as it was; and when no sort is in force (no column,
    the empty column key, or no direction) they stand in the order of the
    input. No exception comes out of computing them. *)
Theorem processedData_filters_then_sorts `{RegExpEngine} `{Collation} `{NumberFormat}
    `{SortEngine}
    (filterEvaluator : Predicate) (st : SortState) (heap : Arrays) (data : positive)
    (rows : list Row) :
  heap !! data = Some rows →
  let passing :=
    filter (λ row, Effect.outcome (runPredicate filterEvaluator row) = Normal true) rows in
  ∃ result heap' shown,
    Effect.outcome (processedData filterEvaluator st heap data) = Normal (result, heap')
    ∧ heap' !! result = Some shown
    ∧ shown ≡ₚ passing
    ∧ result ≠ data
    ∧ heap' !! data = Some rows
    ∧ (sort_column st = None ∨ sort_column st = Some EmptyString ∨ direction st = None →
       shown = passing).
Proof.
  intros Hdata passing.
  assert (heap !! fresh (dom heap) = None) as Hfresh.
  { apply not_elem_of_dom, is_fresh. }
  assert (fresh (dom heap) ≠ data) as Hne by congruence.
  unfold processedData, mbind, Effect_bind. rewrite outcome_bind, Hdata. simpl.
  rewrite filter_outcome
    by (apply Forall_forall; intros; apply runPredicate_returns).
  fold passing. simpl. unfold sortData.
  set (filtered := fresh (dom heap)) in *.
  set (heap1 := <[filtered := passing]> heap).
  assert (heap1 !! filtered = Some passing) as Hfiltered by apply lookup_insert_eq.
  assert (heap1 !! data = Some rows) as Hdata1.
  { unfold heap1. rewrite lookup_insert_ne by exact Hne. exact Hdata. }
  assert (∃ result heap' shown,
            Normal (filtered, heap1) = Normal (result, heap')
            ∧ heap' !! result = Some shown
            ∧ shown ≡ₚ passing ∧ result ≠ data ∧ heap' !! data = Some rows
            ∧ (sort_column st = None ∨ sort_column st = Some EmptyString
               ∨ direction st = None → shown = passing)) as Hplain.
  { exists filtered, heap1, passing.
    split; [reflexivity |]. split; [exact Hfiltered |]. split; [reflexivity |].
    split; [exact Hne |]. split; [exact Hdata1 |]. reflexivity. }
  destruct (sort_column st) as [column |] eqn:Hcolumn; [| exact Hplain].
  destruct (direction st) as [direction |] eqn:Hdirection; [| exact Hplain].
  destruct (decide (column = EmptyString)) as [Hempty | Hnamed]; [exact Hplain |].
  clear Hplain.
  assert (heap1 !! fresh (dom heap1) = None) as Hfresh1.
  { apply not_elem_of_dom, is_fresh. }
  rewrite Hfiltered. simpl. rewrite alter_insert_eq.
  eexists _, _, _. split; [reflexivity |].
  split; [apply lookup_insert_eq |].
  split; [apply Array_sort_permutes |].
  split; [congruence |].
  split; [rewrite lookup_insert_ne by congruence; exact Hdata1 |].
  intros [Hc | [Hc | Hd]]; congruence.
Qed.

Definition people : Arrays := {[ 1%positive := [bob; alice] ]}.

Lemma processedData_filters_then_sorts_witness :
  let passing :=
    filter (λ row, Effect.outcome (runPredicate (Evaluator name_has_a) row) = Normal true)
      [bob; alice] in
  ∃ result heap' shown,
    Effect.outcome (processedData (Evaluator name_has_a) resetSort people 1)
    = Normal (result, heap')
    ∧ heap' !! result = Some shown
    ∧ shown ≡ₚ passing
    ∧ result ≠ 1%positive
    ∧ heap' !! 1%positive = Some [bob; alice]
    ∧ (sort_column resetSort = None ∨ sort_column resetSort = Some EmptyString
       ∨ direction resetSort = None → shown = passing).
Proof.
  apply (processedData_filters_then_sorts (Evaluator name_has_a) resetSort people 1
           [bob; alice]).
  reflexivity.
Defined.

(** ** Column selection *)

(** X19: toggling never hides the last column: for a visible-columns
    sequence without repeated keys that is not empty, the sequence after a
    toggle is not empty and has no repeated key; the toggle changes the
    visibility of no other key, and the toggled key ends up visible exactly
    when it was hidden or was the only visible one. *)
Theorem toggleColumn_keeps_one_visible (columnKey : string) (current : list string) :
  NoDup current → current ≠ [] →
  toggleColumn columnKey current ≠ []
  ∧ NoDup (toggleColumn columnKey current)
  ∧ (∀ other, other ≠ columnKey →
       (other ∈ toggleColumn columnKey current ↔ other ∈ current))
  ∧ (columnKey ∈ toggleColumn columnKey current
     ↔ columnKey ∉ current ∨ length current = 1%nat).
Proof.
  intros Hnodup Hsome. unfold toggleColumn.
  destruct (decide (columnKey ∈ current)) as [Hin | Hout].
  - destruct (decide (1 < length current)%nat) as [Hmany | Hone].
    + split; [| split; [| split]].
      * destruct current as [| a [| b rest]]; simpl in Hmany; try lia.
        apply NoDup_cons in Hnodup as [Ha _].
        intros Hempty.
        assert (a ∉ filter (λ k, k ≠ columnKey) (a :: b :: rest)) as Hna
          by (rewrite Hempty; apply not_elem_of_nil).
        assert (b ∉ filter (λ k, k ≠ columnKey) (a :: b :: rest)) as Hnb
          by (rewrite Hempty; apply not_elem_of_nil).
        rewrite list_elem_of_filter in Hna, Hnb.
        destruct (decide (a = columnKey)) as [-> | Hak].
        -- apply Hnb. split; [| right; left].
           intros ->. apply Ha. left.
        -- apply Hna. split; [exact Hak | left].
      * apply NoDup_filter, Hnodup.
      * intros other Hother. rewrite list_elem_of_filter. tauto.
      * rewrite list_elem_of_filter. split; [intros [Hne _]; congruence |].
        intros [Hout | Hlen]; [contradiction | lia].
    + split; [exact Hsome |]. split; [exact Hnodup |]. split; [tauto |].
      split; [| intros _; exact Hin]. intros _. right.
      destruct current as [| a [| b rest]]; simpl in *; try lia. contradiction.
  - split; [| split; [| split]].
    + intros Hempty. apply app_eq_nil in Hempty as [_ Hempty]. discriminate.
    + apply NoDup_app. split; [exact Hnodup |]. split; [| apply NoDup_singleton].
      intros k Hk Hsingle. apply list_elem_of_singleton in Hsingle. congruence.
    + intros other Hother. rewrite elem_of_app, list_elem_of_singleton. tauto.
    + rewrite elem_of_app, list_elem_of_singleton. tauto.
Qed.

Lemma toggleColumn_keeps_one_visible_witness :
  toggleColumn "a" ["a"] ≠ []
  ∧ NoDup (toggleColumn "a" ["a"])
  ∧ (∀ other, other ≠ "a" → (other ∈ toggleColumn "a" ["a"] ↔ other ∈ ["a"]))
  ∧ ("a" ∈ toggleColumn "a" ["a"] ↔ "a" ∉ ["a"] ∨ length ["a"] = 1%nat).
Proof.
  apply (toggleColumn_keeps_one_visible "a" ["a"]).
  - apply NoDup_singleton.
  - discriminate.
Defined.

(** X20: the two buttons of the column selector: All makes the table show
    every column, in the order of the definitions; Reset keeps at most one
    key, that of the first column, so that exactly the columns with that key
    are shown, and none at all when the first key is the empty string. *)
Theorem select_all_and_none (columns : list ColumnDefinition) :
  visibleColumns columns (selectAllColumns columns) = columns
  ∧ (length (selectNoColumns columns) ≤ 1)%nat
  ∧ (∀ first rest, columns = first :: rest →
       visibleColumns columns (selectNoColumns columns) =
       if decide (key first = EmptyString) then []
       else filter (λ col, key col = key first) columns).
Proof.
  split; [| split].
  - unfold visibleColumns, selectAllColumns, allColumnKeys.
    apply filter_all, Forall_forall. intros col Hcol.
    apply list_elem_of_fmap. exists col. split; [reflexivity | exact Hcol].
  - unfold selectNoColumns. destruct (allColumnKeys columns) as [| first rest];
      [simpl; lia |].
    destruct (decide (first = EmptyString)); simpl; lia.
  - intros first rest ->. unfold selectNoColumns, allColumnKeys, visibleColumns.
    cbn [map]. destruct (decide (key first = EmptyString)) as [Hempty | Hnamed].
    + apply filter_none, Forall_forall. intros col _. apply not_elem_of_nil.
    + apply list_filter_iff. intros col. apply list_elem_of_singleton.
Qed.

(** ** The width map and a drag *)

Lemma publishWidths_snoc (calls : list (string * string)) (call : string * string)
    (widths : Widths) :
  publishWidths (calls ++ [call]) widths =
  handleColumnResize call.1 call.2 (publishWidths calls widths).
Proof. unfold publishWidths. rewrite foldl_app. reflexivity. Qed.

Lemma publishWidths_other (calls : list (string * string)) (widths : Widths) (k : string) :
  k ∉ map fst calls → publishWidths calls widths !! k = widths !! k.
Proof.
  induction calls as [| call calls IH] using rev_ind; intros Hk; [reflexivity |].
  rewrite publishWidths_snoc. unfold handleColumnResize.
  rewrite map_app, elem_of_app in Hk. simpl in Hk.
  rewrite lookup_insert_ne.
  - apply IH. tauto.
  - intros Heq. apply Hk. right. rewrite Heq. apply list_elem_of_here.
Qed.

Lemma publishWidths_last (calls : list (string * string)) (widths : Widths)
    (k v : string) :
  NoDup (map fst calls) → (k, v) ∈ calls → publishWidths calls widths !! k = Some v.
Proof.
  induction calls as [| call calls IH] using rev_ind; intros Hnodup Hin;
    [inversion Hin |].
  rewrite publishWidths_snoc. unfold handleColumnResize.
  rewrite map_app in Hnodup. apply NoDup_app in Hnodup as (Hnodup & Hdisjoint & _).
  apply elem_of_app in Hin as [Hin | Hin].
  - rewrite lookup_insert_ne; [apply IH; assumption |].
    intros Heq. apply (Hdisjoint k).
    + apply list_elem_of_fmap. exists (k, v). split; [reflexivity | exact Hin].
    + simpl. rewrite Heq. apply list_elem_of_here.
  - apply list_elem_of_singleton in Hin. subst call. simpl. apply lookup_insert_eq.
Qed.

Lemma handleResizeMove_calls (d : ResizeData) (clientX : Z) :
  handleResizeMove (Some d) clientX = []
  ∨ ∃ newLeft newRight,
      handleResizeMove (Some d) clientX =
        [(leftColumn d, px newLeft); (rightColumn d, px newRight)]
      ∧ newLeft + newRight = leftStartWidth d + rightStartWidth d.
Proof.
  unfold handleResizeMove.
  destruct (decide (clientX - startX d = 0)); [left; reflexivity | right].
  destruct (decide (leftStartWidth d + (clientX - startX d) < minWidth d)); simpl.
  - destruct (decide (leftStartWidth d + rightStartWidth d - minWidth d < minWidth d));
      eexists _, _; (split; [reflexivity | lia]).
  - destruct (decide (rightStartWidth d - (clientX - startX d) < minWidth d));
      eexists _, _; (split; [reflexivity | lia]).
Qed.

Lemma lookup_map {A B} (f : A → B) (l : list A) (i : nat) :
  map f l !! i = f <$> l !! i.
Proof.
  revert i. induction l as [| x l IH]; intros [| i]; simpl; try reflexivity. apply IH.
Qed.

(** The key of a column with its settings. *)
Definition settings_key (col : ColumnSettings) : string := key (definition col).

(** What a drag between two columns keeps true of a resize state: the drag
    data and the listeners are in place, the two widths of the pair add up
    to [total], and the width of every other key is the one in [locked]. *)
Definition drag_holds (d : ResizeData) (locked : Widths) (s : ResizeState) : Prop :=
  resizeData s = Some d
  ∧ listening s = true
  ∧ (∃ newLeft newRight,
       columnWidths s !! leftColumn d = Some (px newLeft)
       ∧ columnWidths s !! rightColumn d = Some (px newRight)
       ∧ newLeft + newRight = leftStartWidth d + rightStartWidth d)
  ∧ (∀ k, k ≠ leftColumn d → k ≠ rightColumn d →
          columnWidths s !! k = locked !! k).

Lemma mouseMove_drag_holds (d : ResizeData) (locked : Widths) (clientX : Z)
    (s : ResizeState) :
  leftColumn d ≠ rightColumn d →
  drag_holds d locked s → drag_holds d locked (mouseMove clientX s).
Proof.
  intros Hdistinct (Hdata & Hlistening & Hpair & Hothers).
  unfold mouseMove. rewrite Hlistening, Hdata.
  destruct (handleResizeMove_calls d clientX) as [-> | (l & r & -> & Hsum)].
  - split; [reflexivity |]. split; [reflexivity |]. split; [exact Hpair | exact Hothers].
  - split; [reflexivity |]. split; [reflexivity |].
    unfold publishWidths, handleColumnResize. simpl. split.
    + exists l, r. rewrite lookup_insert_ne by congruence.
      rewrite !lookup_insert_eq. repeat split. exact Hsum.
    + intros k Hl Hr. rewrite !lookup_insert_ne by congruence. apply Hothers; assumption.
Qed.

Lemma mouseMoves_drag_holds (d : ResizeData) (locked : Widths) (moves : list Z) :
  ∀ s, leftColumn d ≠ rightColumn d →
       drag_holds d locked s →
       drag_holds d locked (foldl (λ s' clientX, mouseMove clientX s') s moves).
Proof.
  induction moves as [| clientX moves IH]; intros s Hdistinct Hholds; [exact Hholds |].
  simpl. apply IH; [exact Hdistinct |]. apply mouseMove_drag_holds; assumption.
Qed.

Lemma mouseMoves_resizingColumn (moves : list Z) :
  ∀ s, resizingColumn (foldl (λ s' clientX, mouseMove clientX s') s moves)
       = resizingColumn s.
Proof.
  induction moves as [| clientX moves IH]; intros s; simpl; [reflexivity |].
  rewrite IH. unfold mouseMove. destruct (listening s); reflexivity.
Qed.

(** X21: a drag redistributes width between two columns only. When the drag
    of the resizer between two visible columns starts (keys without repeats,
    one header cell per visible column), every visible column is locked to
    its rendered width; after any pointer moves, the widths of the pair are
    pixel widths that add up to the sum of their rendered widths, every other
    visible column still has its rendered width, and the width of a key that
    is not visible is as it was before the drag. *)
Theorem drag_redistributes_between_the_pair (allowResize : option bool)
    (cols : list ColumnSettings) (colIndex : nat) (clientX : Z) (headers : list Z)
    (moves : list Z) (s : ResizeState)
    (leftCol rightCol : ColumnSettings) (thWidth nextThWidth : Z) :
  cols !! colIndex = Some leftCol →
  cols !! S colIndex = Some rightCol →
  allowResize ≠ Some false →
  resizable leftCol ≠ Some false →
  resizable rightCol ≠ Some false →
  headers !! colIndex = Some thWidth →
  headers !! S colIndex = Some nextThWidth →
  NoDup (map settings_key cols) →
  length headers = length cols →
  let final :=
    foldl (λ s' x, mouseMove x s')
      (handleResizeStart allowResize cols colIndex clientX headers s) moves in
  resizingColumn final = Some (settings_key leftCol)
  ∧ (∃ newLeft newRight,
       columnWidths final !! settings_key leftCol = Some (px newLeft)
       ∧ columnWidths final !! settings_key rightCol = Some (px newRight)
       ∧ newLeft + newRight = thWidth + nextThWidth)
  ∧ (∀ i col offsetWidth,
       cols !! i = Some col → headers !! i = Some offsetWidth →
       i ≠ colIndex → i ≠ S colIndex →
       columnWidths final !! settings_key col = Some (px offsetWidth))
  ∧ (∀ k, k ∉ map settings_key cols → columnWidths final !! k = columnWidths s !! k).
Proof.
  intros Hleft Hright Hallow Hlres Hrres Hth Hnext Hnodup Hlength.
  set (calls := map (λ cell : ColumnSettings * Z, (key (definition cell.1), px cell.2))
                  (zip cols headers)).
  set (locked := publishWidths calls (columnWidths s)).
  set (d := {| leftColumn := key (definition leftCol);
               rightColumn := key (definition rightCol);
               startX := clientX; leftStartWidth := thWidth;
               rightStartWidth := nextThWidth; minWidth := 50 |}).
  assert (map fst calls = map settings_key cols) as Hkeys.
  { transitivity (map settings_key (map fst (zip cols headers))).
    - unfold calls. rewrite !map_map. reflexivity.
    - f_equal. apply fst_zip. lia. }
  assert (∀ i col offsetWidth,
            cols !! i = Some col → headers !! i = Some offsetWidth →
            locked !! settings_key col = Some (px offsetWidth)) as Hlocked.
  { intros i col offsetWidth Hcol Hwidth. apply publishWidths_last.
    - rewrite Hkeys. exact Hnodup.
    - unfold calls. apply list_elem_of_fmap. exists (col, offsetWidth).
      split; [reflexivity |]. apply list_elem_of_lookup. exists i.
      apply lookup_zip_Some. split; assumption. }
  assert (∀ i j a b, cols !! i = Some a → cols !! j = Some b → i ≠ j →
                     settings_key a ≠ settings_key b) as Hdistinct.
  { intros i j a b Ha Hb Hij Heq. apply Hij.
    apply (NoDup_lookup _ i j (settings_key a) Hnodup).
    - rewrite lookup_map, Ha. reflexivity.
    - rewrite lookup_map, Hb, Heq. reflexivity. }
  assert (handleResizeStart allowResize cols colIndex clientX headers s =
          {| resizeData := Some d; resizingColumn := Some (settings_key leftCol);
             listening := true; columnWidths := locked |}) as Hstart.
  { unfold handleResizeStart. rewrite Hleft, Hright.
    rewrite decide_False by exact Hallow. rewrite decide_False by tauto.
    rewrite Hth, Hnext. reflexivity. }
  assert (drag_holds d locked
            (handleResizeStart allowResize cols colIndex clientX headers s)) as Hholds.
  { rewrite Hstart. split; [reflexivity |]. split; [reflexivity |]. split.
    - exists thWidth, nextThWidth. simpl.
      split; [apply (Hlocked colIndex); assumption |].
      split; [apply (Hlocked (S colIndex)); assumption | reflexivity].
    - intros k _ _. reflexivity. }
  assert (leftColumn d ≠ rightColumn d) as Hpair.
  { apply (Hdistinct colIndex (S colIndex)); [assumption | assumption | lia]. }
  cbv zeta.
  destruct (mouseMoves_drag_holds d locked moves _ Hpair Hholds)
    as (Hdata & Hlistening & Hsum & Hothers).
  split; [rewrite mouseMoves_resizingColumn, Hstart; reflexivity |].
  split; [exact Hsum |]. split.
  - intros i col offsetWidth Hcol Hwidth Hi HSi.
    rewrite Hothers.
    + apply (Hlocked i); assumption.
    + apply (Hdistinct i colIndex); assumption.
    + apply (Hdistinct i (S colIndex)); assumption.
  - intros k Hk. rewrite Hothers.
    + apply publishWidths_other. rewrite Hkeys. exact Hk.
    + intros ->. apply Hk. apply list_elem_of_fmap. exists leftCol.
      split; [reflexivity |]. apply list_elem_of_lookup. eauto.
    + intros ->. apply Hk. apply list_elem_of_fmap. exists rightCol.
      split; [reflexivity |]. apply list_elem_of_lookup. eauto.
Qed.

Definition settings_abc : list ColumnSettings :=
  map (λ col, {| definition := col; width := None; resizable := None |}) columns_abc.

Definition at_rest : ResizeState :=
  {| resizeData := None; resizingColumn := None; listening := false;
     columnWidths := getInitialWidths settings_abc |}.

Lemma drag_redistributes_between_the_pair_witness :
  let final :=
    foldl (λ s' x, mouseMove x s')
      (handleResizeStart None settings_abc 0 0 [100; 100; 100] at_rest) [30; 70] in
  resizingColumn final = Some "a"
  ∧ (∃ newLeft newRight,
       columnWidths final !! "a" = Some (px newLeft)
       ∧ columnWidths final !! "b" = Some (px newRight)
       ∧ newLeft + newRight = 100 + 100)
  ∧ (∀ i col offsetWidth,
       settings_abc !! i = Some col → [100; 100; 100] !! i = Some offsetWidth →
       i ≠ 0%nat → i ≠ 1%nat →
       columnWidths final !! settings_key col = Some (px offsetWidth))
  ∧ (∀ k, k ∉ map settings_key settings_abc →
          columnWidths final !! k = columnWidths at_rest !! k).
Proof.
  apply (drag_redistributes_between_the_pair None settings_abc 0 0 [100; 100; 100]
           [30; 70] at_rest
           {| definition := {| key := "a"; label := "A" |}; width := None;
              resizable := None |}
           {| definition := {| key := "b"; label := "B" |}; width := None;
              resizable := None |}
           100 100); try reflexivity; try discriminate.
  simpl. repeat constructor; rewrite ?elem_of_cons, ?elem_of_nil; intuition discriminate.
Defined.

(** The run of the witness, computed: the third column keeps its locked
    width while the pair goes from 100px/100px to 150px/50px. *)
Example drag_by_70 :
  columnWidths
    (foldl (λ s' x, mouseMove x s')
       (handleResizeStart None settings_abc 0 0 [100; 100; 100] at_rest) [30; 70])
  = {[ "a" := "150px"; "b" := "50px"; "c" := "100px" ]}.
Proof. vm_compute. reflexivity. Qed.

(** X22: the resizer and the start of a drag agree: deciding whether to
    show a resizer never fails; none is shown after the last visible column
    or when resizing is switched off; and where none is shown, a start of a
    drag changes nothing, whatever the pointer and the header cells are. *)
Theorem no_resizer_no_drag (allowResize : option bool) (cols : list ColumnSettings)
    (colIndex : nat) :
  is_Some (canShowResizer allowResize cols colIndex)
  ∧ ((length cols ≤ S colIndex)%nat → canShowResizer allowResize cols colIndex = Some false)
  ∧ (allowResize = Some false → canShowResizer allowResize cols colIndex = Some false)
  ∧ (canShowResizer allowResize cols colIndex ≠ Some true →
     ∀ clientX headers s,
       handleResizeStart allowResize cols colIndex clientX headers s = s).
Proof.
  unfold canShowResizer, handleResizeStart.
  destruct (decide (allowResize = Some false)) as [Hoff | Hon].
  - split; [eauto |]. split; [reflexivity |]. split; [reflexivity |].
    intros _ clientX headers s.
    destruct (cols !! colIndex), (cols !! S colIndex); reflexivity.
  - destruct (cols !! S colIndex) as [rightCol |] eqn:Hright.
    + destruct (cols !! colIndex) as [leftCol |] eqn:Hleft.
      * split; [eauto |]. split.
        { intros Hlen. apply lookup_lt_Some in Hright. lia. }
        split; [contradiction |].
        intros Hhidden clientX headers s.
        destruct (decide (resizable leftCol = Some false ∨ resizable rightCol = Some false))
          as [_ | Hboth]; [reflexivity |].
        exfalso. apply Hhidden. f_equal.
        rewrite !bool_decide_eq_true_2; [reflexivity | tauto | tauto].
      * apply lookup_lt_Some in Hright. apply lookup_ge_None in Hleft. lia.
    + split; [eauto |]. split; [reflexivity |]. split; [contradiction |].
      intros _ clientX headers s. destruct (cols !! colIndex); reflexivity.
Qed.

(** ** Initial widths *)

(** The width [getInitialWidths] gives a column. *)
Definition initialWidthOf (totalCols : nat) (col : ColumnSettings) : string :=
  match width col with
  | Some w => if decide (w = EmptyString)
              then pretty (100 `div` Z.of_nat totalCols) +:+ "%" else w
  | None => pretty (100 `div` Z.of_nat totalCols) +:+ "%"
  end.

Lemma getInitialWidths_publish (columns : list ColumnSettings) :
  getInitialWidths columns =
  publishWidths
    (map (λ col, (settings_key col, initialWidthOf (length columns) col)) columns) ∅.
Proof.
  unfold getInitialWidths, publishWidths. cbv zeta.
  remember (length columns) as n eqn:Hn. clear Hn. generalize (∅ : Widths).
  induction columns as [| col columns IH]; intros widths; [reflexivity |].
  simpl. rewrite IH. reflexivity.
Qed.

(** X23: the initial width map has an entry for every column and for
    nothing else; when the keys do not repeat, a column with a width of its
    own (not empty) starts with that width, and any other column with the
    whole-number share of 100% among all columns, shares that together never
    exceed 100%. *)
Theorem getInitialWidths_covers_every_column (columns : list ColumnSettings) :
  NoDup (map settings_key columns) →
  (∀ k, is_Some (getInitialWidths columns !! k) ↔ k ∈ map settings_key columns)
  ∧ (∀ col, col ∈ columns →
       getInitialWidths columns !! settings_key col =
       Some (initialWidthOf (length columns) col))
  ∧ Z.of_nat (length columns) * (100 `div` Z.of_nat (length columns)) ≤ 100.
Proof.
  intros Hnodup. rewrite getInitialWidths_publish.
  set (calls := map (λ col, (settings_key col, initialWidthOf (length columns) col))
                  columns).
  assert (map fst calls = map settings_key columns) as Hkeys.
  { unfold calls. rewrite map_map. reflexivity. }
  assert (∀ col, col ∈ columns →
            publishWidths calls ∅ !! settings_key col =
            Some (initialWidthOf (length columns) col)) as Hcovered.
  { intros col Hcol. apply publishWidths_last; [rewrite Hkeys; exact Hnodup |].
    unfold calls. apply list_elem_of_fmap. exists col. split; [reflexivity | exact Hcol]. }
  split; [| split; [exact Hcovered |]].
  - intros k. split.
    + intros Hk. destruct (decide (k ∈ map settings_key columns)) as [Hin | Hout];
        [exact Hin |].
      rewrite publishWidths_other in Hk by (rewrite Hkeys; exact Hout).
      rewrite lookup_empty in Hk. destruct Hk as [v Hv]. discriminate.
    + intros Hk. apply list_elem_of_fmap in Hk as (col & -> & Hcol).
      rewrite Hcovered by exact Hcol. eauto.
  - destruct columns as [| col columns]; [simpl; lia |].
    apply Z.mul_div_le. simpl. lia.
Qed.

Lemma getInitialWidths_covers_every_column_witness :
  (∀ k, is_Some (getInitialWidths settings_abc !! k) ↔ k ∈ map settings_key settings_abc)
  ∧ (∀ col, col ∈ settings_abc →
       getInitialWidths settings_abc !! settings_key col =
       Some (initialWidthOf (length settings_abc) col))
  ∧ Z.of_nat (length settings_abc) * (100 `div` Z.of_nat (length settings_abc)) ≤ 100.
Proof.
  apply (getInitialWidths_covers_every_column settings_abc).
  simpl. repeat constructor; rewrite ?elem_of_cons, ?elem_of_nil; intuition discriminate.
Defined.

(** ** CSV export, further *)

Lemma exportCell_cases `{NumberFormat} (value : Value) :
  exportCell value =
  if decide (needs_quoting (cellText value))
  then quoted (cellText value) else cellText value.
Proof.
  assert (∀ text,
            (if includes comma text || includes dquote text || includes LF text
             then quoted text else text) =
            if decide (needs_quoting text) then quoted text else text) as Htest.
  { intros text. unfold needs_quoting.
    destruct (includes comma text) eqn:Hc; [| destruct (includes dquote text) eqn:Hq;
      [| destruct (includes LF text) eqn:Hl]]; simpl.
    - rewrite decide_True; [reflexivity |]. left. apply includes_occurs, Hc.
    - rewrite decide_True; [reflexivity |]. right; left. apply includes_occurs, Hq.
    - rewrite decide_True; [reflexivity |]. right; right. apply includes_occurs, Hl.
    - rewrite decide_False; [reflexivity |].
      rewrite <- !includes_occurs, Hc, Hq, Hl. intros [? | [? | ?]]; discriminate. }
  destruct value as [| | [] | n | text]; unfold exportCell; simpl nullish; cbv iota;
    try (rewrite decide_False; [reflexivity |];
         unfold needs_quoting; simpl; intuition discriminate).
  - apply Htest.
  - apply Htest.
Qed.

Lemma quoted_body_inj (s t : string) :
  double_quotes s +:+ String dquote EmptyString
  = double_quotes t +:+ String dquote EmptyString →
  s = t.
Proof.
  revert t. induction s as [| a s IH]; intros [| b t]; simpl.
  - reflexivity.
  - destruct (decide (b = dquote)); simpl; intros [= Hb]; congruence.
  - destruct (decide (a = dquote)); simpl; intros [= Ha]; congruence.
  - destruct (decide (a = dquote)) as [-> | Ha], (decide (b = dquote)) as [-> | Hb];
      simpl; intros Heq; injection Heq; intros; try congruence.
    + f_equal. apply IH. assumption.
    + subst b. f_equal. apply IH. assumption.
Qed.

(** X24: quoting loses nothing: two cells that are serialized to the same
    field have the same text (the empty string for null and undefined, Yes
    or No for a boolean, the string form otherwise); in particular two
    different strings never give the same field. *)
Theorem exportCell_determines_the_text `{NumberFormat} (v w : Value) :
  exportCell v = exportCell w →
  cellText v = cellText w
  ∧ (∀ s t, v = VStr s → w = VStr t → s = t).
Proof.
  intros Heq.
  assert (cellText v = cellText w) as Htext.
  { rewrite !exportCell_cases in Heq.
    destruct (decide (needs_quoting (cellText v))) as [Hv | Hv],
             (decide (needs_quoting (cellText w))) as [Hw | Hw].
    - unfold quoted in Heq. injection Heq as Heq. apply quoted_body_inj, Heq.
    - exfalso. apply Hw. right; left. rewrite <- Heq. simpl. left. reflexivity.
    - exfalso. apply Hv. right; left. rewrite Heq. simpl. left. reflexivity.
    - exact Heq. }
  split; [exact Htext |].
  intros s t -> ->. exact Htext.
Qed.

Lemma exportCell_determines_the_text_witness :
  cellText (VNum 7) = cellText (VStr "7")
  ∧ (∀ s t, VNum 7 = VStr s → VStr "7" = VStr t → s = t).
Proof.
  apply (exportCell_determines_the_text (VNum 7) (VStr "7")). reflexivity.
Defined.

(** A run of line feeds. *)
Fixpoint line_feeds (n : nat) : string :=
  match n with
  | O => EmptyString
  | S n' => String LF (line_feeds n')
  end.

Lemma join_empty_fields (n : nat) :
  join (String LF EmptyString) (replicate (S n) EmptyString) = line_feeds n.
Proof.
  induction n as [| n IH]; [reflexivity |].
  change (replicate (S (S n)) EmptyString)
    with (EmptyString :: replicate (S n) EmptyString).
  cbn [join replicate]. cbn [join replicate] in IH. rewrite IH. reflexivity.
Qed.

(** X25: an export with no visible column is not refused: when no column
    key is in the visible-columns sequence, the document is the byte-order
    mark followed by one line feed per exported row (an empty header line and
    an empty line for each row). *)
Theorem handleExport_without_columns `{NumberFormat} (exportType : ExportDataType)
    (processedRows data : list Row) (columns : list ColumnDefinition)
    (visibleKeys : list string) :
  Forall (λ col, key col ∉ visibleKeys) columns →
  handleExport exportType processedRows data columns visibleKeys =
  BOM +:+
  line_feeds (length (match exportType with visible => processedRows | all => data end)).
Proof.
  intros Hhidden. unfold handleExport. rewrite filter_none by exact Hhidden.
  f_equal. unfold csvContent. simpl.
  set (rows := match exportType with visible => processedRows | all => data end).
  rewrite <- join_empty_fields. f_equal.
  change (replicate (S (length rows)) EmptyString)
    with (EmptyString :: replicate (length rows) EmptyString).
  f_equal. induction rows as [| row rows IH]; simpl; [reflexivity |].
  rewrite IH. reflexivity.
Qed.

Lemma handleExport_without_columns_witness :
  handleExport all [] [alice; bob] columns_abc [] = BOM +:+ line_feeds 2.
Proof.
  apply (handleExport_without_columns all [] [alice; bob] columns_abc []).
  repeat constructor; apply not_elem_of_nil.
Defined.

(** ** Removal, then the next apply *)

(** X26: a removed condition stays removed: after the child at an index is
    removed and the remaining group is merged with the side table again (as
    the next apply does), a condition id of the removed subtree has no entry,
    provided the id does not occur in the remaining group; and every entry of
    the other ids that was there before the removal is still there,
    unchanged. *)
Theorem removed_entries_stay_removed (group : FilterGroup) (index : nat) (store : Store)
    (child : FilterNode) (updated : FilterGroup) (store' : Store) (id : string) :
  handleRemoveChild group index store = Some (updated, store') →
  children group !! index = Some child →
  id ∈ conditionIds child →
  id ∉ conditionIds (group_node updated) →
  (buildFilterWithValues (group_node updated) store').2 !! id = None
  ∧ (∀ other values, other ∉ conditionIds child → store !! other = Some values →
       (buildFilterWithValues (group_node updated) store').2 !! other = Some values).
Proof.
  intros Hremove Hchild Hid Hgone. unfold handleRemoveChild in Hremove.
  rewrite Hchild in Hremove. injection Hremove as <- <-.
  split.
  - apply eq_None_not_Some. intros Hsome.
    rewrite buildFilterWithValues_store in Hsome.
    apply visits_keys in Hsome as [Hsome | Hsome].
    + rewrite removeFromStore_lookup, decide_True in Hsome by exact Hid.
      destruct Hsome as [v Hv]. discriminate.
    + rewrite leaf_ids in Hsome. contradiction.
  - intros other values Hother Hvalues.
    eapply lookup_weaken.
    + rewrite removeFromStore_lookup, decide_False by exact Hother. exact Hvalues.
    + rewrite buildFilterWithValues_store. apply visits_subseteq.
Qed.

Lemma removed_entries_stay_removed_witness :
  (buildFilterWithValues
     (group_node {| group_id := "g1"; operator := AND;
                    children := [sample_condition "c1"] |})
     (removeFromStore nested_subgroup nested_store)).2 !! "c3" = None
  ∧ (∀ other values, other ∉ conditionIds nested_subgroup →
       nested_store !! other = Some values →
       (buildFilterWithValues
          (group_node {| group_id := "g1"; operator := AND;
                         children := [sample_condition "c1"] |})
          (removeFromStore nested_subgroup nested_store)).2 !! other = Some values).
Proof.
  apply (removed_entries_stay_removed nested_group 1 nested_store nested_subgroup
           {| group_id := "g1"; operator := AND; children := [sample_condition "c1"] |}
           (removeFromStore nested_subgroup nested_store) "c3").
  - reflexivity.
  - reflexivity.
  - simpl. rewrite !elem_of_cons. tauto.
  - simpl. rewrite elem_of_cons, elem_of_nil. intuition discriminate.
Defined.

(** ** The name of the exported file (FilterableTable.tsx, handleExport) *)

(** What [new Date()] answers to its getters; [getMonth] counts from 0. *)
Record DateParts : Type := {
  getFullYear : Z;
  getMonth : Z;
  getDate : Z;
  getHours : Z;
  getMinutes : Z;
  getSeconds : Z;
}.

Fixpoint zeros (n : nat) : string :=
  match n with
  | O => EmptyString
  | S n' => String "0" (zeros n')
  end.

(** [String(n).padStart(2, "0")] *)
Definition padStart2 (n : Z) : string :=
  let s := pretty n in
  zeros (2 - String.length s) +:+ s.

Definition timestamp (now : DateParts) : string :=
  pretty (getFullYear now)
  +:+ "-" +:+ padStart2 (getMonth now + 1)
  +:+ "-" +:+ padStart2 (getDate now)
  +:+ "_" +:+ padStart2 (getHours now)
  +:+ "-" +:+ padStart2 (getMinutes now)
  +:+ "-" +:+ padStart2 (getSeconds now).

(** [link.download]: [props.exportFileName || "export"], the timestamp and
    the extension. *)
Definition downloadName (exportFileName : option string) (now : DateParts) : string :=
  let baseName :=
    match exportFileName with
    | Some name => if decide (name = EmptyString) then "export" else name
    | None => "export"
    end in
  baseName +:+ "_" +:+ timestamp now +:+ ".csv".

(** A date of the years 1000 to 9999. *)
Definition four_digit_year (now : DateParts) : Prop :=
  1000 ≤ getFullYear now ≤ 9999
  ∧ 0 ≤ getMonth now ≤ 11
  ∧ 1 ≤ getDate now ≤ 31
  ∧ 0 ≤ getHours now ≤ 23
  ∧ 0 ≤ getMinutes now ≤ 59
  ∧ 0 ≤ getSeconds now ≤ 59.

(** The integers from [first], [count] of them. *)
Definition Z_range (first : Z) (count : Z) : list Z :=
  map (λ k, first + Z.of_nat k) (seq 0 (Z.to_nat count)).

Lemma Z_range_In (first count n : Z) : first ≤ n < first + count → In n (Z_range first count).
Proof.
  intros Hn. unfold Z_range. apply in_map_iff. exists (Z.to_nat (n - first)).
  split; [lia |]. apply in_seq. lia.
Qed.

Lemma padStart2_length (n : Z) : 0 ≤ n < 100 → String.length (padStart2 n) = 2%nat.
Proof.
  intros Hn.
  assert (forallb (λ k, Nat.eqb (String.length (padStart2 k)) 2) (Z_range 0 100) = true)
    as Hall by (vm_compute; reflexivity).
  rewrite forallb_forall in Hall. apply Nat.eqb_eq, Hall, Z_range_In. lia.
Qed.

Lemma padStart2_inj (n m : Z) :
  0 ≤ n < 100 → 0 ≤ m < 100 → padStart2 n = padStart2 m → n = m.
Proof.
  intros Hn Hm Heq.
  assert (forallb
            (λ k, forallb
                    (λ j, implb (String.eqb (padStart2 k) (padStart2 j)) (Z.eqb k j))
                    (Z_range 0 100))
            (Z_range 0 100) = true) as Hall by (vm_compute; reflexivity).
  rewrite forallb_forall in Hall.
  specialize (Hall n ltac:(apply Z_range_In; lia)).
  rewrite forallb_forall in Hall.
  specialize (Hall m ltac:(apply Z_range_In; lia)).
  rewrite Heq, String.eqb_refl in Hall. apply Z.eqb_eq, Hall.
Qed.

Lemma year_length (y : Z) : 1000 ≤ y ≤ 9999 → String.length (pretty y) = 4%nat.
Proof.
  intros Hy.
  assert (forallb (λ k, Nat.eqb (String.length (pretty k)) 4) (Z_range 1000 9000) = true)
    as Hall by (vm_compute; reflexivity).
  rewrite forallb_forall in Hall. apply Nat.eqb_eq, Hall, Z_range_In. lia.
Qed.

Lemma append_same_length (a a' b b' : string) :
  String.length a = String.length a' → a +:+ b = a' +:+ b' → a = a' ∧ b = b'.
Proof.
  revert a'. induction a as [| c a IH]; intros [| c' a']; simpl; try discriminate.
  - intros _ Heq. split; [reflexivity | exact Heq].
  - intros [= Hlen] [= -> Heq]. destruct (IH a' Hlen Heq) as [-> ->].
    split; reflexivity.
Qed.

(** The decimal digit of a number below ten, and numbers written with two
    and with four digits, zeros in front. *)
Definition digit (d : Z) : ascii := ascii_of_nat (48 + Z.to_nat d).

Definition two_digits (n : Z) : string :=
  String (digit (n `div` 10)) (String (digit (n `mod` 10)) EmptyString).

Definition four_digits (n : Z) : string :=
  String (digit (n `div` 1000)) (String (digit ((n `div` 100) `mod` 10))
    (two_digits (n `mod` 100))).

Lemma padStart2_two_digits (n : Z) : 0 ≤ n < 100 → padStart2 n = two_digits n.
Proof.
  intros Hn.
  assert (forallb (λ k, String.eqb (padStart2 k) (two_digits k)) (Z_range 0 100) = true)
    as Hall by (vm_compute; reflexivity).
  rewrite forallb_forall in Hall. apply String.eqb_eq, Hall, Z_range_In. lia.
Qed.

Lemma year_four_digits (y : Z) : 1000 ≤ y ≤ 9999 → pretty y = four_digits y.
Proof.
  intros Hy.
  assert (forallb (λ k, String.eqb (pretty k) (four_digits k)) (Z_range 1000 9000) = true)
    as Hall by (vm_compute; reflexivity).
  rewrite forallb_forall in Hall. apply String.eqb_eq, Hall, Z_range_In. lia.
Qed.

(** X27: the name of the exported file is the base name (export when none
    or an empty one is given), an underscore, the timestamp and the
    extension .csv; for a clock reading of the years 1000 to 9999 the
    timestamp is YYYY-MM-DD_HH-mm-ss, 19 characters, the month counted from
    1 and every part but the year written with two digits; and two exports
    under the same base name get the same file name only if the local clock
    read the same year, month, day, hour, minute and second at both. *)
Theorem downloadName_format (exportFileName : option string) (now later : DateParts) :
  four_digit_year now → four_digit_year later →
  timestamp now =
    four_digits (getFullYear now)
    +:+ "-" +:+ two_digits (getMonth now + 1)
    +:+ "-" +:+ two_digits (getDate now)
    +:+ "_" +:+ two_digits (getHours now)
    +:+ "-" +:+ two_digits (getMinutes now)
    +:+ "-" +:+ two_digits (getSeconds now)
  ∧ String.length (timestamp now) = 19%nat
  ∧ downloadName None now = "export_" +:+ timestamp now +:+ ".csv"
  ∧ downloadName (Some EmptyString) now = "export_" +:+ timestamp now +:+ ".csv"
  ∧ (∀ name, name ≠ EmptyString →
       downloadName (Some name) now = name +:+ "_" +:+ timestamp now +:+ ".csv")
  ∧ (downloadName exportFileName now = downloadName exportFileName later → now = later).
Proof.
  intros (Hy & Hmo & Hd & Hh & Hmi & Hs) (Hy' & Hmo' & Hd' & Hh' & Hmi' & Hs').
  assert (∀ d, 1000 ≤ getFullYear d ≤ 9999 → 0 ≤ getMonth d ≤ 11 →
               1 ≤ getDate d ≤ 31 → 0 ≤ getHours d ≤ 23 →
               0 ≤ getMinutes d ≤ 59 → 0 ≤ getSeconds d ≤ 59 →
               String.length (timestamp d) = 19%nat) as Hlength.
  { intros d ? ? ? ? ? ?. unfold timestamp.
    rewrite !append_length, year_length, !padStart2_length by lia. reflexivity. }
  split.
  { unfold timestamp.
    rewrite year_four_digits, !padStart2_two_digits by lia. reflexivity. }
  split; [apply Hlength; assumption |].
  split; [reflexivity |]. split; [reflexivity |].
  split.
  { intros name Hname. unfold downloadName. rewrite decide_False by exact Hname.
    reflexivity. }
  unfold downloadName. intros Heq.
  apply append_same_length in Heq as [_ Heq]; [| reflexivity].
  apply (append_same_length "_" "_") in Heq as [_ Heq]; [| reflexivity].
  apply append_same_length in Heq as [Heq _];
    [| rewrite !Hlength by assumption; reflexivity].
  unfold timestamp in Heq.
  apply append_same_length in Heq as [Hyear Heq];
    [| rewrite !year_length by assumption; reflexivity].
  apply (append_same_length "-" "-") in Heq as [_ Heq]; [| reflexivity].
  apply append_same_length in Heq as [Hmonth Heq];
    [| rewrite !padStart2_length by lia; reflexivity].
  apply (append_same_length "-" "-") in Heq as [_ Heq]; [| reflexivity].
  apply append_same_length in Heq as [Hdate Heq];
    [| rewrite !padStart2_length by lia; reflexivity].
  apply (append_same_length "_" "_") in Heq as [_ Heq]; [| reflexivity].
  apply append_same_length in Heq as [Hhours Heq];
    [| rewrite !padStart2_length by lia; reflexivity].
  apply (append_same_length "-" "-") in Heq as [_ Heq]; [| reflexivity].
  apply append_same_length in Heq as [Hminutes Heq];
    [| rewrite !padStart2_length by lia; reflexivity].
  apply (append_same_length "-" "-") in Heq as [_ Hseconds]; [| reflexivity].
  apply (inj pretty) in Hyear.
  apply padStart2_inj in Hmonth; [| lia | lia].
  apply padStart2_inj in Hdate; [| lia | lia].
  apply padStart2_inj in Hhours; [| lia | lia].
  apply padStart2_inj in Hminutes; [| lia | lia].
  apply padStart2_inj in Hseconds; [| lia | lia].
  destruct now, later. simpl in *. f_equal; lia.
Qed.

Definition new_year_2025 : DateParts :=
  {| getFullYear := 2025; getMonth := 0; getDate := 1;
     getHours := 9; getMinutes := 5; getSeconds := 0 |}.

(** One second later. *)
Definition a_second_later : DateParts :=
  {| getFullYear := 2025; getMonth := 0; getDate := 1;
     getHours := 9; getMinutes := 5; getSeconds := 1 |}.

Lemma downloadName_format_witness :
  timestamp new_year_2025 = "2025-01-01_09-05-00"
  ∧ String.length (timestamp new_year_2025) = 19%nat
  ∧ downloadName None new_year_2025 = "export_" +:+ timestamp new_year_2025 +:+ ".csv"
  ∧ downloadName (Some EmptyString) new_year_2025
    = "export_" +:+ timestamp new_year_2025 +:+ ".csv"
  ∧ (∀ name, name ≠ EmptyString →
       downloadName (Some name) new_year_2025
       = name +:+ "_" +:+ timestamp new_year_2025 +:+ ".csv")
  ∧ (downloadName (Some "users") new_year_2025 = downloadName (Some "users") a_second_later
     → new_year_2025 = a_second_later).
Proof.
  apply (downloadName_format (Some "users") new_year_2025 a_second_later);
    unfold four_digit_year; simpl; lia.
Defined.

Example downloadName_of_new_year :
  downloadName None new_year_2025 = "export_2025-01-01_09-05-00.csv"
  ∧ downloadName (Some "users") new_year_2025 = "users_2025-01-01_09-05-00.csv"
  ∧ downloadName (Some "users") a_second_later = "users_2025-01-01_09-05-01.csv".
Proof. vm_compute. repeat split. Qed.
